(** * printable_map_creator: the spiral walk and the mosaic assembler

    A shallow embedding of [fetch_map] and [assemble_image_details] of
    [osm20.py], and of the canvas and offset arithmetic of the older
    [osm19.py].  Python integers are [Z]; [//] is [Z.div] (floor);
    [range] is stdpp's [seqZ]; the [seen_positions] set is a [gset]; the
    browser, the file system and the console are traces of events.  A
    Python [str] is the [string] of its UTF-8 bytes: [endswith], [replace]
    and [split] with an ASCII argument, and the order of [sorted] (by code
    point), are the same on the bytes as on the characters. *)

From stdpp Require Import gmap strings list pretty sorting.
From Stdlib Require Import ZArith Lia Ascii.

Local Open Scope Z_scope.

(** ** Python's [for] over a list, threading the loop state. *)

Definition for_each {A S : Type} (l : list A) (body : A → S → S) (s : S) : S :=
  fold_left (λ acc a, body a acc) l s.

(** [range(n)] and [range(a, b)] *)
Definition range (n : Z) : list Z := seqZ 0 n.
Definition range_from (a b : Z) : list Z := seqZ a (b - a).

(** ** The grid *)

Definition GridPosition : Type := Z * Z.

(** ** What the browser is asked to do, and what is printed about it *)

Inductive Event : Type :=
  | MoveMouseTo (center_x center_y : Z)
  | Drag (direction_text : string) (dx dy movement_pixels : Z)
         (move_mouse_x move_mouse_y : Z)
  | Wait (seconds : Z)
  | TakeScreenshot (x y : Z)
  | CropImage (x y : Z) (size : Z * Z)
  | SkipScreenshot (x y : Z).

(** ** Exceptions that leave a function, and results *)

Inductive Exception : Type :=
  | ValueError | IndexError | UnboundLocalError | SystemError.

Inductive Outcome (A : Type) : Type :=
  | Returned (a : A)
  | Raised (e : Exception).

Arguments Returned {A} a.
Arguments Raised {A} e.

(** The collaborators [fetch_map] reads from: the viewport the driver
    reports, the pixel size of a screenshot, and the [dark] insets. *)
Record Driver : Type := mkDriver {
  innerWidth : Z;
  innerHeight : Z;
  screenshot_size : Z * Z
}.

Record Dark : Type := mkDark {
  dark_top : Z; dark_bottom : Z; dark_left : Z; dark_right : Z
}.

(** The settings of [main] in [osm20.py], and a full-HD browser window. *)
Definition main_dark : Dark := mkDark 110 110 400 100.
Definition main_movement_pixels : Z := 800.
Definition main_pan_wait_seconds : Z := 5.
Definition sample_driver : Driver := mkDriver 1920 1080 (1920, 1080).

(** ** The string operations of the assembler *)

(** [int(s)] sends a [str] with a character outside ASCII through the
    interpreter's table of Unicode characters (the decimal digits of every
    script, the blanks beyond ASCII) before it reads it.  That table is not
    part of the repository and grows with the versions of the interpreter:
    the result of [int] on such text is a parameter of the embedding,
    [None] standing for the ValueError. *)
Class UnicodeInt := int_of_unicode : string → option Z.

(** An interpreter that knows no digits but the ASCII ones: the instance
    the concrete runs below are evaluated with (their names are ASCII). *)
Definition ascii_digits_only : UnicodeInt := λ _, None.

Section PyStrings.

(** Every character of [s] passes [test]. *)
Fixpoint all_chars (test : ascii → bool) (s : string) : bool :=
  match s with
  | EmptyString => true
  | String c s' => test c && all_chars test s'
  end.

(** [s.endswith(suffix)] *)
Fixpoint endswith (s suffix : string) : bool :=
  String.eqb s suffix ||
  match s with
  | EmptyString => false
  | String _ s' => endswith s' suffix
  end.

(** [s.replace(".png", "")]: every occurrence, left to right. *)
Fixpoint remove_png (s : string) : string :=
  match s with
  | String c1 (String c2 (String c3 (String c4 rest)) as s') =>
      if Ascii.eqb c1 "."%char && Ascii.eqb c2 "p"%char &&
         Ascii.eqb c3 "n"%char && Ascii.eqb c4 "g"%char
      then remove_png rest
      else String c1 (remove_png s')
  | String c s' => String c (remove_png s')
  | EmptyString => EmptyString
  end.

(** [s.split("_")] *)
Fixpoint split_underscore (s : string) : list string :=
  match s with
  | EmptyString => [EmptyString]
  | String c s' =>
      let parts := split_underscore s' in
      if Ascii.eqb c "_"%char then EmptyString :: parts
      else match parts with
           | [] => [String c EmptyString]
           | p :: ps => String c p :: ps
           end
  end.

(** The text is ASCII: every byte is below 128. *)
Definition is_ascii_char (c : ascii) : bool := (N_of_ascii c <? 128)%N.
Definition is_ascii (s : string) : bool := all_chars is_ascii_char s.

(** White space as [int] skips it at both ends of ASCII text: tab, line
    feed, vertical tab, form feed, carriage return and the space (the
    separators 28 to 31 are blanks for [str.strip], not for [int]). *)
Definition is_space (c : ascii) : bool :=
  let n := N_of_ascii c in
  ((9 <=? n) && (n <=? 13) || (n =? 32))%N.

Definition is_digit (c : ascii) : bool :=
  let n := N_of_ascii c in ((48 <=? n) && (n <=? 57))%N.

Definition digit_value (c : ascii) : Z := Z.of_N (N_of_ascii c) - 48.

Fixpoint lstrip (s : string) : string :=
  match s with
  | String c s' => if is_space c then lstrip s' else s
  | EmptyString => EmptyString
  end.

Definition strip (s : string) : string :=
  String.rev (lstrip (String.rev (lstrip s))).

(** What follows a digit: the end, another digit, or one underscore and
    another digit. *)
Fixpoint digits_value (acc : Z) (s : string) : option Z :=
  match s with
  | EmptyString => Some acc
  | String c s' =>
      if is_digit c then digits_value (10 * acc + digit_value c) s'
      else if Ascii.eqb c "_"%char then
        match s' with
        | String d s'' =>
            if is_digit d then digits_value (10 * acc + digit_value d) s''
            else None
        | EmptyString => None
        end
      else None
  end.

Definition unsigned_value (s : string) : option Z :=
  match s with
  | String c s' => if is_digit c then digits_value (digit_value c) s' else None
  | EmptyString => None
  end.

(** [int(s)] in base ten on ASCII text: blanks at both ends, an optional
    sign, then digits, single underscores between them allowed; [None] is
    the ValueError.  (The interpreter also refuses text of more digits
    than [sys.get_int_max_str_digits()], 4300 unless it is reset or
    switched off; this is [int] with the limit off, which the name of a
    file, 255 bytes at most, does not reach.) *)
Definition ascii_int (s : string) : option Z :=
  match strip s with
  | String c rest =>
      if Ascii.eqb c "-"%char then Z.opp <$> unsigned_value rest
      else if Ascii.eqb c "+"%char then unsigned_value rest
      else unsigned_value (String c rest)
  | EmptyString => None
  end.

Context `{!UnicodeInt}.

(** [int(s)] *)
Definition py_int (s : string) : option Z :=
  if is_ascii s then ascii_int s else int_of_unicode s.

End PyStrings.

(** [os.path.join(directory, name)] for a [name] of a directory listing. *)
Definition path_join (directory name : string) : string :=
  if String.eqb directory "" then name
  else if endswith directory "/" then (directory ++ name)%string
  else (directory ++ "/" ++ name)%string.

Module Osm20.

(** [directions = dict(up=(0, -1), right=(1, 0), down=(0, 1), left=(-1, 0))],
    a dict in insertion order. *)
Definition directions : list (string * (Z * Z)) :=
  [("up"%string, (0, -1)); ("right"%string, (1, 0));
   ("down"%string, (0, 1)); ("left"%string, (-1, 0))].

Definition directions_values : list (Z * Z) := directions.*2.

Definition pair_eqb (a b : Z * Z) : bool :=
  (a.1 =? b.1) && (a.2 =? b.2).

(** [directions[key]] and the inverse dict
    [name_of_directions = {v: k for k, v in directions.items()}]: a later
    item with the same value would overwrite an earlier one.  Both dicts
    are constants and every lookup of [fetch_map] hits (see
    [directions_lookups_hit]), so the KeyError branch is given a default. *)
Fixpoint dict_get (key : string) (d : list (string * (Z * Z)))
  : option (Z * Z) :=
  match d with
  | [] => None
  | (k, v) :: d' => if String.eqb k key then Some v else dict_get key d'
  end.

Fixpoint name_of (v : Z * Z) (d : list (string * (Z * Z))) : option string :=
  match d with
  | [] => None
  | (k, v') :: d' =>
      match name_of v d' with
      | Some k' => Some k'
      | None => if pair_eqb v' v then Some k else None
      end
  end.

Definition directions_at (key : string) : Z * Z :=
  default (0, 0) (dict_get key directions).

Definition name_of_directions (v : Z * Z) : string :=
  default ""%string (name_of v directions).

(** The local variables of [fetch_map] and the events so far. *)
Record NavState : Type := mkNav {
  nav_x : Z;
  nav_y : Z;
  seen_positions : gset GridPosition;
  cropped_image_size : option (Z * Z);
  trace : list Event
}.

Definition emit (e : Event) (s : NavState) : NavState :=
  mkNav (nav_x s) (nav_y s) (seen_positions s) (cropped_image_size s)
        (trace s ++ [e]).

Definition initial : NavState := mkNav 0 0 ∅ None [].

(** ** Observations on a trace *)

Definition is_pan (e : Event) : bool :=
  match e with Drag _ _ _ _ _ _ => true | _ => false end.

Fixpoint pan_events (tr : list Event) : list Event :=
  match tr with
  | [] => []
  | e :: tr' => if is_pan e then e :: pan_events tr' else pan_events tr'
  end.

(** The direction and the distance of every pan, in order. *)
Fixpoint pan_steps (tr : list Event) : list (string * Z) :=
  match tr with
  | [] => []
  | Drag direction_text _ _ pixels _ _ :: tr' =>
      (direction_text, pixels) :: pan_steps tr'
  | _ :: tr' => pan_steps tr'
  end.

(** Positions a screenshot was taken at, in order. *)
Fixpoint captured_positions (tr : list Event) : list GridPosition :=
  match tr with
  | [] => []
  | TakeScreenshot x y :: tr' => (x, y) :: captured_positions tr'
  | _ :: tr' => captured_positions tr'
  end.

(** Positions whose screenshot was skipped, in order. *)
Fixpoint skipped_positions (tr : list Event) : list GridPosition :=
  match tr with
  | [] => []
  | SkipScreenshot x y :: tr' => (x, y) :: skipped_positions tr'
  | _ :: tr' => skipped_positions tr'
  end.

(** Positions the walk stood at when it entered the loop body, in order. *)
Fixpoint visited_positions (tr : list Event) : list GridPosition :=
  match tr with
  | [] => []
  | TakeScreenshot x y :: tr' => (x, y) :: visited_positions tr'
  | SkipScreenshot x y :: tr' => (x, y) :: visited_positions tr'
  | _ :: tr' => visited_positions tr'
  end.

Section Navigator.

Variable driver : Driver.
Variable dark : Dark.
Variable movement_pixels : Z.
Variable pan_wait_seconds : Z.

(** [retrieve_viewport_size] *)
Definition retrieve_viewport_size : Z * Z :=
  (innerHeight driver, innerWidth driver).

(** [move_mouse_to_center_of_viewport]: returns
    [(center_x, center_y, viewport_height, viewport_width)]. *)
Definition move_mouse_to_center_of_viewport (s : NavState)
  : (Z * Z * Z * Z) * NavState :=
  let '(viewport_height, viewport_width) := retrieve_viewport_size in
  let center_x := viewport_width / 2 in
  let center_y := viewport_height / 2 in
  ((center_x, center_y, viewport_height, viewport_width),
   emit (MoveMouseTo center_x center_y) s).

(** [pan_with_mouse] *)
Definition pan_with_mouse (center_x center_y dx dy pixels : Z)
    (viewport_height viewport_width : Z) (direction_text : string)
    (s : NavState) : NavState :=
  let end_x := center_x + dx * pixels in
  let end_y := center_y + dy * pixels in
  let end_x := Z.max 0 (Z.min viewport_width end_x) in
  let end_y := Z.max 0 (Z.min viewport_height end_y) in
  let move_mouse_x := end_x - center_x in
  let move_mouse_y := end_y - center_y in
  emit (Wait pan_wait_seconds)
    (emit (Drag direction_text dx dy pixels move_mouse_x move_mouse_y) s).

(** [crop_image]: the size of the box
    [(left, top, width - right, height - bottom)]. *)
Definition crop_image : Z * Z :=
  let '(width, height) := screenshot_size driver in
  (width - dark_right dark - dark_left dark,
   height - dark_bottom dark - dark_top dark).

(** One half-step pan of the centering loop: [dx, dy = directions[key]],
    then the mouse is centred and the map dragged by
    [movement_pixels // 2]. *)
Definition centering_pan (key : string) (s : NavState) : NavState :=
  let '(dx, dy) := directions_at key in
  let direction_name := name_of_directions (dx, dy) in
  let '((center_x, center_y, viewport_height, viewport_width), s1) :=
    move_mouse_to_center_of_viewport s in
  pan_with_mouse center_x center_y dx dy (movement_pixels / 2)
    viewport_height viewport_width direction_name s1.

(** The loop [for _ in range(steps)] before the rings. *)
Definition centering (steps : Z) (s : NavState) : NavState :=
  for_each (range steps)
    (λ _ s, centering_pan "right" (centering_pan "down" s)) s.

(** The body of the innermost loop, at direction [(dx, dy)]. *)
Definition sub_step (d : Z * Z) (s : NavState) : NavState :=
  let '(dx, dy) := d in
  let x := nav_x s in
  let y := nav_y s in
  let s1 :=
    if decide ((x, y) ∈ seen_positions s)
    then emit (SkipScreenshot x y) s
    else
      let size := crop_image in
      let s' := emit (CropImage x y size) (emit (TakeScreenshot x y) s) in
      mkNav (nav_x s') (nav_y s') (seen_positions s') (Some size) (trace s') in
  let '((center_x, center_y, viewport_height, viewport_width), s2) :=
    move_mouse_to_center_of_viewport s1 in
  let direction_name := name_of_directions (dx, dy) in
  let s3 := pan_with_mouse center_x center_y dx dy movement_pixels
              viewport_height viewport_width direction_name s2 in
  mkNav (x + dx) (y + dy) ({[ (x, y) ]} ∪ seen_positions s3)
        (cropped_image_size s3) (trace s3).

(** [for sub_step in range(step)] *)
Definition walk_direction (step : Z) (d : Z * Z) (s : NavState) : NavState :=
  for_each (range step) (λ _, sub_step d) s.

(** [for dx, dy in directions.values()] *)
Definition walk_ring (step : Z) (s : NavState) : NavState :=
  for_each directions_values (walk_direction step) s.

(** [for step in all_steps], with [all_steps = range(1, steps + 1)] *)
Definition walk_rings (steps : Z) (s : NavState) : NavState :=
  for_each (range_from 1 (steps + 1)) walk_ring s.

(** The state of [fetch_map] when it reaches its [return]. *)
Definition fetch_map_run (steps : Z) : NavState :=
  walk_rings steps (centering steps initial).

(** [return cropped_image_size]: the name is bound only by a capture. *)
Definition fetch_map (steps : Z) : Outcome (Z * Z) :=
  match cropped_image_size (fetch_map_run steps) with
  | Some size => Returned size
  | None => Raised UnboundLocalError
  end.

(** The events one pass of the body appends: a screenshot and its crop,
    or the skip message; then the mouse is centred, the map dragged, and
    the wait. *)
Definition pass_events (d : Z * Z) (s : NavState) : list Event :=
  let x := nav_x s in
  let y := nav_y s in
  let center_x := innerWidth driver / 2 in
  let center_y := innerHeight driver / 2 in
  (if decide ((x, y) ∈ seen_positions s)
   then [SkipScreenshot x y]
   else [TakeScreenshot x y; CropImage x y crop_image]) ++
  [MoveMouseTo center_x center_y;
   Drag (name_of_directions d) d.1 d.2 movement_pixels
     (Z.max 0 (Z.min (innerWidth driver) (center_x + d.1 * movement_pixels))
      - center_x)
     (Z.max 0 (Z.min (innerHeight driver) (center_y + d.2 * movement_pixels))
      - center_y);
   Wait pan_wait_seconds].

End Navigator.

(** The state and its trace agree: the seen set holds exactly the captured
    positions, none captured twice, every visit (so every skip) is at a
    captured position, and the size is bound once something is captured. *)
Definition consistent (s : NavState) : Prop :=
  NoDup (captured_positions (trace s)) ∧
  (∀ p, p ∈ seen_positions s ↔ p ∈ captured_positions (trace s)) ∧
  (∀ p, p ∈ visited_positions (trace s) ↔ p ∈ captured_positions (trace s)) ∧
  (cropped_image_size s = None ↔ captured_positions (trace s) = []).

(** [s'] continues [s] by [n] passes of the body: [n] pans and [n] visits. *)
Definition continues (n : Z) (s s' : NavState) : Prop :=
  ∃ tr, trace s' = trace s ++ tr ∧
        Z.of_nat (length (pan_events tr)) = n ∧
        Z.of_nat (length (visited_positions tr)) = n.

(** A call that is refused: it raises, and no pan was made. *)
Definition rejected_before_panning {A : Type} (outcome : Outcome A)
    (tr : list Event) : Prop :=
  (∃ e, outcome = Raised e) ∧ pan_events tr = [].

(** The cells on the border of the square with corners (0, 0) and
    (k, -k), and the cells of the whole square. *)
Definition on_ring (k : Z) (p : GridPosition) : Prop :=
  0 ≤ p.1 ≤ k ∧ - k ≤ p.2 ≤ 0 ∧ (p.1 = 0 ∨ p.1 = k ∨ p.2 = 0 ∨ p.2 = - k).

Definition in_square (n : Z) (p : GridPosition) : Prop :=
  0 ≤ p.1 ≤ n ∧ - n ≤ p.2 ≤ 0.

(** The square written out, column by column. *)
Definition square_cells (n : Z) : list GridPosition :=
  x ← seqZ 0 (n + 1); (λ y, (x, y)) <$> seqZ (- n) (n + 1).

(** ** The assembler *)

(** What [assemble_image_details] does to the outside: the two messages
    the error paths print, the canvas it allocates, the tiles it opens and
    pastes and the file it saves.  (Its progress prints are left out; sizes
    are taken to fit the memory of the machine.) *)
Inductive AsmEvent : Type :=
  | Print (message : string)
  | NewImage (size : Z * Z)
  | OpenImage (filepath : string)
  | Paste (filepath : string) (offset : Z * Z) (size : Z * Z)
  | Save (output_filename : string).

Section Collecting.
Context `{!UnicodeInt}.

(** [parts = filename.replace(".png", "").split("_")] and
    [x, y = int(parts[1]), int(parts[2])], left to right: a missing part is
    an IndexError, a part that is no integer a ValueError. *)
Definition parse_position (filename : string) : Outcome GridPosition :=
  let parts := split_underscore (remove_png filename) in
  match parts !! 1%nat with
  | None => Raised IndexError
  | Some p1 =>
      match py_int p1 with
      | None => Raised ValueError
      | Some x =>
          match parts !! 2%nat with
          | None => Raised IndexError
          | Some p2 =>
              match py_int p2 with
              | None => Raised ValueError
              | Some y => Returned (x, y)
              end
          end
      end
  end.

End Collecting.

(** String order of [sorted]: by code point. *)
Fixpoint insert_sorted (a : string) (l : list string) : list string :=
  match l with
  | [] => [a]
  | b :: l' => if String.leb a b then a :: l else b :: insert_sorted a l'
  end.

Definition sorted (l : list string) : list string :=
  foldr insert_sorted [] l.

Definition skip_message (filename : string) : string :=
  ("Skipping invalid filename format during assembly: " ++ filename)%string.

Definition no_images_message : string :=
  "No valid images found for assembly. Exiting.".

(** The lists [images] and [positions], kept as one list of pairs (they
    are appended to together and zipped afterwards). *)
Definition Collected : Type := list (string * GridPosition).

(** The collecting loop: only [ValueError] is caught. *)
Fixpoint collect `{!UnicodeInt} (cropped_dir : string)
    (cropped_files : list string) (found : Collected) (out : list AsmEvent)
  : list AsmEvent * Outcome Collected :=
  match cropped_files with
  | [] => (out, Returned found)
  | filename :: rest =>
      if endswith filename ".png" then
        let filepath := path_join cropped_dir filename in
        match parse_position filename with
        | Returned position =>
            collect cropped_dir rest (found ++ [(filepath, position)]) out
        | Raised ValueError =>
            collect cropped_dir rest found (out ++ [Print (skip_message filename)])
        | Raised e => (out, Raised e)
        end
      else collect cropped_dir rest found out
  end.

Definition fixed_margin : Z := 6000.

(** [assembled_image_size_x, assembled_image_size_y] *)
Definition canvas_size (movement_pixels : Z) (cropped_image_size : Z * Z)
    (steps : Z) : Z * Z :=
  let '(width, height) := cropped_image_size in
  (width + (movement_pixels * steps * 2) + fixed_margin,
   height + (movement_pixels * steps * 2) + fixed_margin).

(** [center_x, center_y] *)
Definition canvas_center (canvas : Z * Z) : Z * Z :=
  (canvas.1 / 2, canvas.2 / 2).

(** [x_offset, y_offset] of the tile at [pos] whose image has [size]. *)
Definition paste_offset (center : Z * Z) (movement_pixels : Z)
    (pos : GridPosition) (size : Z * Z) : Z * Z :=
  let '(center_x, center_y) := center in
  let '(width, height) := size in
  let '(x, y) := pos in
  (center_x - (x * movement_pixels) - (width / 2),
   center_y - (y * movement_pixels) - (height / 2)).

Definition output_name (output_base_filename : string) (steps zoom_level : Z)
    (size : Z * Z) : string :=
  (output_base_filename ++ "_steps" ++ pretty steps ++ "_zoom" ++
   pretty zoom_level ++ "_" ++ pretty size.1 ++ "x" ++ pretty size.2 ++
   "px.png")%string.

(** The rectangle of a paste lies in [0, width) x [0, height). *)
Definition within_canvas (canvas offset size : Z * Z) : Prop :=
  0 ≤ offset.1 ∧ offset.1 + size.1 ≤ canvas.1 ∧
  0 ≤ offset.2 ∧ offset.2 + size.2 ≤ canvas.2.

Definition is_print (e : AsmEvent) : Prop := ∃ message, e = Print message.

(** [Image.new] refuses a negative width or height with a ValueError. *)
Definition refused_size (size : Z * Z) : bool :=
  (size.1 <? 0) || (size.2 <? 0).

(** An image with a side of zero pixels is allocated, but it cannot be
    written: the encoder of [save] refuses the empty tile with a
    SystemError. *)
Definition empty_size (size : Z * Z) : bool :=
  (size.1 =? 0) || (size.2 =? 0).

Section Assembler.
Context `{!UnicodeInt}.

(** The directory: the names [os.listdir] gives and the pixel size of the
    image behind each path. *)
Variable listdir : list string.
Variable image_size : string → Z * Z.

Definition paste_tile (center : Z * Z) (movement_pixels : Z)
    (tile : string * GridPosition) : list AsmEvent :=
  let '(img, pos) := tile in
  let size := image_size img in
  [OpenImage img; Paste img (paste_offset center movement_pixels pos size) size].

Definition assemble_image_details (cropped_dir output_base_filename : string)
    (movement_pixels : Z) (cropped_image_size : Z * Z) (zoom_level steps : Z)
  : list AsmEvent * Outcome () :=
  match collect cropped_dir (sorted listdir) [] [] with
  | (out, Raised e) => (out, Raised e)
  | (out, Returned tiles) =>
      match tiles with
      | [] => (out ++ [Print no_images_message], Returned ())
      | _ =>
          let canvas := canvas_size movement_pixels cropped_image_size steps in
          let center := canvas_center canvas in
          if refused_size canvas then (out, Raised ValueError)
          else if empty_size canvas then
            (out ++ [NewImage canvas]
                 ++ (tiles ≫= paste_tile center movement_pixels),
             Raised SystemError)
          else
            (out ++ [NewImage canvas]
                 ++ (tiles ≫= paste_tile center movement_pixels)
                 ++ [Save (output_name output_base_filename steps zoom_level
                             canvas)],
             Returned ())
      end
  end.

End Assembler.

End Osm20.

(** ** The older iteration, [osm19.py]: canvas and offsets *)

Module Osm19.

(** No margin is added here. *)
Definition canvas_size (movement_pixels : Z) (cropped_image_size : Z * Z)
    (steps : Z) : Z * Z :=
  let '(width, height) := cropped_image_size in
  (width + (movement_pixels * steps * 2),
   height + (movement_pixels * steps * 2)).

Definition canvas_center (canvas : Z * Z) : Z * Z :=
  (canvas.1 / 2, canvas.2 / 2).

(** [x_offset = center_x - (x * movement_pixels) - (height // 2)] and
    [y_offset = center_y - (y * movement_pixels) - (width // 2)], with
    [width, height = image.size]. *)
Definition paste_offset (center : Z * Z) (movement_pixels : Z)
    (pos : GridPosition) (size : Z * Z) : Z * Z :=
  let '(center_x, center_y) := center in
  let '(width, height) := size in
  let '(x, y) := pos in
  (center_x - (x * movement_pixels) - (height / 2),
   center_y - (y * movement_pixels) - (width / 2)).

End Osm19.

(** * The rest of the two files *)

(** The characters [str] of an integer is made of. *)
Definition is_int_char (c : ascii) : bool := is_digit c || Ascii.eqb c "-"%char.

Definition not_dot (c : ascii) : bool := negb (Ascii.eqb c "."%char).
Definition not_underscore (c : ascii) : bool := negb (Ascii.eqb c "_"%char).
Definition not_space (c : ascii) : bool := negb (is_space c).

(** ** [osm20.py]: file names, waiting, the wrapper, the cleanup, [main] *)

Module Run.
Import Osm20.

(** The base name of the screenshot at (x, y),
    [f"screenshot_{x}_{y}.png"]; [crop_image] saves the crop under the
    same base name in [cropped_dir]. *)
Definition screenshot_name (x y : Z) : string :=
  "screenshot_" +:+ pretty x +:+ "_" +:+ pretty y +:+ ".png".

(** The names in [raw_dir], and in [cropped_dir], after a walk into the
    fresh directories of [create_directories]: one per screenshot. *)
Definition cropped_listing (tr : list Event) : list string :=
  (λ p, screenshot_name p.1 p.2) <$> captured_positions tr.

(** [wait]: one [time.sleep(1)] per pass of [for _ in range(seconds)]. *)
Definition wait (seconds : Z) : list Z := (λ _, 1) <$> range seconds.

(** The seconds slept over a trace: every [Wait] is a call of [wait]. *)
Fixpoint slept (tr : list Event) : Z :=
  match tr with
  | [] => 0
  | Wait seconds :: tr' => foldr Z.add 0 (wait seconds) + slept tr'
  | _ :: tr' => slept tr'
  end.

(** The drag of a pan ends inside the viewport. *)
Definition drag_in_viewport (driver : Driver) (e : Event) : Prop :=
  match e with
  | Drag _ _ _ _ move_mouse_x move_mouse_y =>
      0 ≤ innerWidth driver / 2 + move_mouse_x ≤ innerWidth driver ∧
      0 ≤ innerHeight driver / 2 + move_mouse_y ≤ innerHeight driver
  | _ => True
  end.

(** The drag of a pan is as long as the pan asked for. *)
Definition drag_is_full (e : Event) : Prop :=
  match e with
  | Drag _ dx dy pixels move_mouse_x move_mouse_y =>
      move_mouse_x = dx * pixels ∧ move_mouse_y = dy * pixels
  | _ => True
  end.

(** The drag of a pan is as long as asked for exactly when the pan fits
    between the center and the edges of the viewport. *)
Definition drag_full_iff_fits (driver : Driver) (e : Event) : Prop :=
  match e with
  | Drag _ dx dy pixels move_mouse_x move_mouse_y =>
      (move_mouse_x = dx * pixels ∧ move_mouse_y = dy * pixels) ↔
      (0 ≤ innerWidth driver / 2 + dx * pixels ≤ innerWidth driver ∧
       0 ≤ innerHeight driver / 2 + dy * pixels ≤ innerHeight driver)
  | _ => True
  end.

(** The pan was asked for with the distance [pixels]. *)
Definition asked_for (pixels : Z) (e : Event) : Prop :=
  match e with
  | Drag _ _ _ movement_pixels _ _ => movement_pixels = pixels
  | _ => True
  end.

(** The drag of a pan is what [pan_with_mouse] computes from the direction
    and the distance asked for, the mouse being at the center of the
    viewport: the end point is kept inside the viewport. *)
Definition drag_as_computed (driver : Driver) (e : Event) : Prop :=
  match e with
  | Drag _ dx dy pixels move_mouse_x move_mouse_y =>
      let center_x := innerWidth driver / 2 in
      let center_y := innerHeight driver / 2 in
      move_mouse_x =
        Z.max 0 (Z.min (innerWidth driver) (center_x + dx * pixels)) - center_x ∧
      move_mouse_y =
        Z.max 0 (Z.min (innerHeight driver) (center_y + dy * pixels)) - center_y
  | _ => True
  end.

(** The events of the two pans of one pass of the centering loop. *)
Definition centering_events (driver : Driver)
    (movement_pixels pan_wait_seconds : Z) : list Event :=
  let center_x := innerWidth driver / 2 in
  let center_y := innerHeight driver / 2 in
  [MoveMouseTo center_x center_y;
   Drag "down" 0 1 (movement_pixels / 2)
     (Z.max 0 (Z.min (innerWidth driver) (center_x + 0 * (movement_pixels / 2)))
      - center_x)
     (Z.max 0 (Z.min (innerHeight driver) (center_y + 1 * (movement_pixels / 2)))
      - center_y);
   Wait pan_wait_seconds;
   MoveMouseTo center_x center_y;
   Drag "right" 1 0 (movement_pixels / 2)
     (Z.max 0 (Z.min (innerWidth driver) (center_x + 1 * (movement_pixels / 2)))
      - center_x)
     (Z.max 0 (Z.min (innerHeight driver) (center_y + 0 * (movement_pixels / 2)))
      - center_y);
   Wait pan_wait_seconds].

(** The pastes among the events of the assembler, in order. *)
Fixpoint pastes (events : list AsmEvent) : list (string * (Z * Z) * (Z * Z)) :=
  match events with
  | [] => []
  | Paste filepath offset size :: events' =>
      (filepath, offset, size) :: pastes events'
  | _ :: events' => pastes events'
  end.

(** The canvases allocated and the files saved, in order. *)
Fixpoint canvases (events : list AsmEvent) : list (Z * Z) :=
  match events with
  | [] => []
  | NewImage size :: events' => size :: canvases events'
  | _ :: events' => canvases events'
  end.

Fixpoint saved (events : list AsmEvent) : list string :=
  match events with
  | [] => []
  | Save output_filename :: events' => output_filename :: saved events'
  | _ :: events' => saved events'
  end.

Fixpoint printed (events : list AsmEvent) : list string :=
  match events with
  | [] => []
  | Print message :: events' => message :: printed events'
  | _ :: events' => printed events'
  end.

Section Names.
Context `{!UnicodeInt}.

(** A name the collecting loop makes a tile of, and the tile it makes. *)
Definition parses (name : string) : Prop :=
  endswith name ".png" = true ∧ ∃ pos, parse_position name = Returned pos.

Definition tile_of (dir name : string) (t : string * GridPosition) : Prop :=
  t.1 = path_join dir name ∧ parse_position name = Returned t.2.

(** A name of the listing that becomes a tile, and one that is skipped
    with the warning. *)
Definition is_tile (name : string) : bool :=
  endswith name ".png" &&
  match parse_position name with Returned _ => true | Raised _ => false end.

Definition is_skipped (name : string) : bool :=
  endswith name ".png" &&
  match parse_position name with Raised ValueError => true | _ => false end.

(** A name of the listing at which the collecting loop raises. *)
Definition aborts (name : string) : Prop :=
  endswith name ".png" = true ∧ parse_position name = Raised IndexError.

End Names.

(** The parts the parse looks at. *)
Definition parts_of (filename : string) : list string :=
  split_underscore (remove_png filename).

(** [title.replace(" ", "_")] *)
Fixpoint replace_spaces (s : string) : string :=
  match s with
  | EmptyString => EmptyString
  | String c s' =>
      String (if Ascii.eqb c " "%char then "_"%char else c) (replace_spaces s')
  end.

(** [assemble_big_map]; [now_text] is the formatted [datetime.now()]. *)
Definition assemble_big_map `{!UnicodeInt} (listdir : list string)
    (image_size : string → Z * Z) (now_text : string)
    (base_dir cropped_dir : string) (movement_pixels steps zoom_level : Z)
    (cropped_image_size : Z * Z) (title : string)
  : list AsmEvent * Outcome () :=
  let underscored_title := replace_spaces title in
  let output_base_filename :=
    path_join base_dir ("map_" +:+ underscored_title +:+ "_" +:+ now_text) in
  assemble_image_details listdir image_size cropped_dir output_base_filename
    movement_pixels cropped_image_size zoom_level steps.

(** What [cleanup] leaves: the names still in each directory, [None] once
    the directory itself is removed, and whether the [rmdir] pair failed
    (the message of the [except OSError]). *)
Record Cleaned : Type := mkCleaned {
  cropped_left : option (list string);
  raw_left : option (list string);
  rmdir_failed : bool
}.

Definition not_png (filename : string) : Prop := endswith filename ".png" = false.

(** [cleanup] on directories that hold plain files: every [.png] is
    removed from both; then [os.rmdir(cropped_dir)] and
    [os.rmdir(raw_dir)] share one [try], and [rmdir] fails on a directory
    that is not empty. *)
Definition cleanup (raw_dir cropped_dir : list string) : Cleaned :=
  let cropped_rest := filter not_png cropped_dir in
  let raw_rest := filter not_png raw_dir in
  match cropped_rest with
  | [] =>
      match raw_rest with
      | [] => mkCleaned None None false
      | _ => mkCleaned None (Some raw_rest) true
      end
  | _ => mkCleaned (Some cropped_rest) (Some raw_rest) true
  end.

(** The workflow of [main]: [fetch_map], [assemble_big_map] on what the walk
    left in [cropped_dir] (every crop has the size [fetch_map] returns),
    then [cleanup].  An exception of a step ends it. *)
Definition workflow `{!UnicodeInt} (driver : Driver) (dark : Dark)
    (movement_pixels pan_wait_seconds steps zoom_level : Z)
    (title now_text base_dir cropped_dir : string)
  : Outcome (list AsmEvent * Cleaned) :=
  match fetch_map driver dark movement_pixels pan_wait_seconds steps with
  | Raised e => Raised e
  | Returned cropped_image_size =>
      let listing :=
        cropped_listing
          (trace (fetch_map_run driver dark movement_pixels pan_wait_seconds
                    steps)) in
      match assemble_big_map listing (λ _, cropped_image_size) now_text
              base_dir cropped_dir movement_pixels steps zoom_level
              cropped_image_size title with
      | (_, Raised e) => Raised e
      | (events, Returned _) => Returned (events, cleanup listing listing)
      end
  end.

End Run.

(** ** [osm19.py]: the walk and the names it parses *)

Module Osm19Nav.

Inductive Event19 : Type :=
  | MoveMouseTo19 (center_x center_y : Z)
  | TakeScreenshot19 (i x y : Z)
  | CropImage19 (i x y : Z) (size : Z * Z)
  | Drag19 (dx dy move_mouse_x move_mouse_y : Z)
  | Wait19 (seconds : Z).

(** [directions = [(0, -1), (1, 0), (0, 1), (-1, 0)]] *)
Definition directions : list (Z * Z) := [(0, -1); (1, 0); (0, 1); (-1, 0)].

(** The locals [x], [y], [i], [cropped_image_size] and the events so far. *)
Record NavState19 : Type := mkNav19 {
  x19 : Z;
  y19 : Z;
  i19 : Z;
  size19 : option (Z * Z);
  trace19 : list Event19
}.

(** Before the loops the mouse is moved to the center once. *)
Definition initial19 (driver : Driver) : NavState19 :=
  mkNav19 0 0 0 None
    [MoveMouseTo19 (innerWidth driver / 2) (innerHeight driver / 2)].

Section Navigator19.

Variable driver : Driver.
Variable dark : Dark.
Variable movement_pixels : Z.
Variable scroll_wait_seconds : Z.

(** The body of the innermost loop: no test, a screenshot every time. *)
Definition sub_step19 (d : Z * Z) (s : NavState19) : NavState19 :=
  let '(dx, dy) := d in
  let x := x19 s in
  let y := y19 s in
  let i := i19 s in
  let size := Osm20.crop_image driver dark in
  let viewport_width := innerWidth driver in
  let viewport_height := innerHeight driver in
  let center_x := viewport_width / 2 in
  let center_y := viewport_height / 2 in
  let end_x := center_x + dx * movement_pixels in
  let end_y := center_y + dy * movement_pixels in
  let end_x := Z.max 0 (Z.min viewport_width end_x) in
  let end_y := Z.max 0 (Z.min viewport_height end_y) in
  let move_mouse_x := end_x - center_x in
  let move_mouse_y := end_y - center_y in
  mkNav19 (x + dx) (y + dy) (i + 1) (Some size)
    (trace19 s ++
     [TakeScreenshot19 i x y; CropImage19 i x y size;
      MoveMouseTo19 center_x center_y;
      Drag19 dx dy move_mouse_x move_mouse_y; Wait19 scroll_wait_seconds]).

Definition walk_direction19 (step : Z) (d : Z * Z) (s : NavState19)
  : NavState19 :=
  for_each (range step) (λ _, sub_step19 d) s.

Definition walk_ring19 (step : Z) (s : NavState19) : NavState19 :=
  for_each directions (walk_direction19 step) s.

Definition fetch_map_run19 (steps : Z) : NavState19 :=
  for_each (range_from 1 (steps + 1)) walk_ring19 (initial19 driver).

Definition fetch_map19 (steps : Z) : Outcome (Z * Z) :=
  match size19 (fetch_map_run19 steps) with
  | Some size => Returned size
  | None => Raised UnboundLocalError
  end.

End Navigator19.

(** The counter, and the position, of every screenshot, in order. *)
Fixpoint shots (tr : list Event19) : list (Z * GridPosition) :=
  match tr with
  | [] => []
  | TakeScreenshot19 i x y :: tr' => (i, (x, y)) :: shots tr'
  | _ :: tr' => shots tr'
  end.

Fixpoint drags19 (tr : list Event19) : list (Z * Z) :=
  match tr with
  | [] => []
  | Drag19 dx dy _ _ :: tr' => (dx, dy) :: drags19 tr'
  | _ :: tr' => drags19 tr'
  end.

(** The walk of [osm19.py] and the walk of [osm20.py] are at the same
    position, the screenshots of the first are at the positions the second
    has visited, and they are numbered from 0 up. *)
Definition same_walk (s19 : NavState19) (s20 : Osm20.NavState) : Prop :=
  x19 s19 = Osm20.nav_x s20 ∧ y19 s19 = Osm20.nav_y s20 ∧
  (shots (trace19 s19)).*2 = Osm20.visited_positions (Osm20.trace s20) ∧
  (shots (trace19 s19)).*1 = seqZ 0 (i19 s19) ∧ 0 ≤ i19 s19.

(** [f"screenshot_#{i}_{x}_{y}.png"] *)
Definition screenshot_name19 (i x y : Z) : string :=
  "screenshot_#" +:+ pretty i +:+ "_" +:+ pretty x +:+ "_" +:+ pretty y +:+
  ".png".

(** The parse of [osm19.py]: [x, y = int(parts[2]), int(parts[3])]. *)
Definition parse_position19 `{!UnicodeInt} (filename : string)
  : Outcome GridPosition :=
  let parts := split_underscore (remove_png filename) in
  match parts !! 2%nat with
  | None => Raised IndexError
  | Some p2 =>
      match py_int p2 with
      | None => Raised ValueError
      | Some x =>
          match parts !! 3%nat with
          | None => Raised IndexError
          | Some p3 =>
              match py_int p3 with
              | None => Raised ValueError
              | Some y => Returned (x, y)
              end
          end
      end
  end.

(** The names of the screenshots of a trace. *)
Definition shot_names (tr : list Event19) : list string :=
  (λ shot, screenshot_name19 shot.1 shot.2.1 shot.2.2) <$> shots tr.

End Osm19Nav.

(** * Facts *)

(** ** Loops *)

Lemma for_each_nil {A S : Type} (body : A → S → S) (s : S) :
  for_each [] body s = s.
Proof. reflexivity. Qed.

Lemma for_each_cons {A S : Type} (a : A) (l : list A) (body : A → S → S) (s : S) :
  for_each (a :: l) body s = for_each l body (body a s).
Proof. reflexivity. Qed.

Lemma for_each_app {A S : Type} (l1 l2 : list A) (body : A → S → S) (s : S) :
  for_each (l1 ++ l2) body s = for_each l2 body (for_each l1 body s).
Proof. unfold for_each. apply fold_left_app. Qed.

Lemma for_each_snoc {A S : Type} (a : A) (l : list A) (body : A → S → S) (s : S) :
  for_each (l ++ [a]) body s = body a (for_each l body s).
Proof. by rewrite for_each_app. Qed.

(** Anything every pass of the body keeps, the loop keeps. *)
Lemma for_each_preserves {A S : Type} (P : S → Prop) (body : A → S → S) :
  (∀ a s, P s → P (body a s)) →
  ∀ l s, P s → P (for_each l body s).
Proof.
  intros Hbody l. induction l as [|a l IH]; intros s Hs; [done|].
  rewrite for_each_cons. apply IH, Hbody, Hs.
Qed.

Lemma for_each_preserves_elem {A S : Type} (P : S → Prop) (body : A → S → S)
    (l : list A) :
  (∀ a s, a ∈ l → P s → P (body a s)) →
  ∀ s, P s → P (for_each l body s).
Proof.
  induction l as [|a l IH]; intros Hbody s Hs; [done|].
  rewrite for_each_cons. apply IH.
  - intros b s' Hb. apply Hbody. by right.
  - apply Hbody; [by left|done].
Qed.

(** [range(n + 1)] is [range(n)] followed by [n]. *)
Lemma range_succ (n : Z) : 0 ≤ n → range (n + 1) = range n ++ [n].
Proof.
  intros Hn. unfold range. rewrite (seqZ_app 0 n 1) by lia.
  rewrite (seqZ_cons (0 + n)) by lia.
  rewrite (seqZ_nil (Z.succ (0 + n))) by lia. by rewrite Z.add_0_l.
Qed.

Lemma range_nonpos (n : Z) : n ≤ 0 → range n = [].
Proof. intros. unfold range. by apply seqZ_nil. Qed.

Lemma range_from_succ (n : Z) :
  0 ≤ n → range_from 1 (n + 1 + 1) = range_from 1 (n + 1) ++ [n + 1].
Proof.
  intros Hn. unfold range_from.
  replace (n + 1 + 1 - 1) with (n + 1) by lia.
  replace (n + 1 - 1) with n by lia.
  rewrite (seqZ_app 1 n 1) by lia.
  rewrite (seqZ_cons (1 + n)) by lia.
  rewrite (seqZ_nil (Z.succ (1 + n))) by lia.
  by rewrite (Z.add_comm 1 n).
Qed.

Lemma range_from_nonpos (n : Z) : n ≤ 0 → range_from 1 (n + 1) = [].
Proof. intros. unfold range_from. apply seqZ_nil. lia. Qed.

(** ** The two dicts of [fetch_map] *)

Lemma directions_lookups_hit :
  Osm20.dict_get "down" Osm20.directions = Some (0, 1) ∧
  Osm20.dict_get "right" Osm20.directions = Some (1, 0) ∧
  Osm20.directions_values = [(0, -1); (1, 0); (0, 1); (-1, 0)] ∧
  ∀ k v, (k, v) ∈ Osm20.directions → Osm20.name_of v Osm20.directions = Some k.
Proof.
  split_and!; [done..|]. intros k v Hin. unfold Osm20.directions in Hin.
  repeat (apply elem_of_cons in Hin as [[= -> ->]|Hin]); [done..|].
  by apply elem_of_nil in Hin.
Qed.

(** ** Observations distribute over a trace that grows at its end *)

Module TraceFacts.
Import Osm20.

Lemma pan_events_app tr tr' :
  pan_events (tr ++ tr') = pan_events tr ++ pan_events tr'.
Proof.
  induction tr as [|e tr IH]; [done|]. simpl.
  destruct (is_pan e); simpl; by rewrite IH.
Qed.

Lemma pan_steps_app tr tr' :
  pan_steps (tr ++ tr') = pan_steps tr ++ pan_steps tr'.
Proof.
  induction tr as [|e tr IH]; [done|]. destruct e; simpl; by rewrite IH.
Qed.

Lemma captured_positions_app tr tr' :
  captured_positions (tr ++ tr') = captured_positions tr ++ captured_positions tr'.
Proof.
  induction tr as [|e tr IH]; [done|]. destruct e; simpl; by rewrite IH.
Qed.

Lemma skipped_positions_app tr tr' :
  skipped_positions (tr ++ tr') = skipped_positions tr ++ skipped_positions tr'.
Proof.
  induction tr as [|e tr IH]; [done|]. destruct e; simpl; by rewrite IH.
Qed.

Lemma skipped_visited tr p :
  p ∈ skipped_positions tr → p ∈ visited_positions tr.
Proof.
  induction tr as [|e tr IH]; [done|].
  destruct e; simpl; rewrite ?elem_of_cons; intuition.
Qed.

Lemma visited_positions_app tr tr' :
  visited_positions (tr ++ tr') = visited_positions tr ++ visited_positions tr'.
Proof.
  induction tr as [|e tr IH]; [done|]. destruct e; simpl; by rewrite IH.
Qed.

End TraceFacts.

(** ** One pass of the loop body *)

Module NavFacts.
Import Osm20 TraceFacts.

Section Facts.

Variable driver : Driver.
Variable dark : Dark.
Variable movement_pixels : Z.
Variable pan_wait_seconds : Z.

Local Abbreviation sub_step :=
  (sub_step driver dark movement_pixels pan_wait_seconds).
Local Abbreviation pass_events :=
  (pass_events driver dark movement_pixels pan_wait_seconds).
Local Abbreviation walk_direction :=
  (walk_direction driver dark movement_pixels pan_wait_seconds).
Local Abbreviation walk_ring :=
  (walk_ring driver dark movement_pixels pan_wait_seconds).
Local Abbreviation walk_rings :=
  (walk_rings driver dark movement_pixels pan_wait_seconds).
Local Abbreviation centering_pan :=
  (centering_pan driver movement_pixels pan_wait_seconds).
Local Abbreviation centering :=
  (centering driver movement_pixels pan_wait_seconds).
Local Abbreviation fetch_map_run :=
  (fetch_map_run driver dark movement_pixels pan_wait_seconds).
Local Abbreviation fetch_map :=
  (fetch_map driver dark movement_pixels pan_wait_seconds).

Lemma sub_step_position d s :
  nav_x (sub_step d s) = nav_x s + d.1 ∧ nav_y (sub_step d s) = nav_y s + d.2.
Proof. destruct d as [dx dy]. by unfold Osm20.sub_step. Qed.

Lemma sub_step_seen d s :
  seen_positions (sub_step d s) = {[ (nav_x s, nav_y s) ]} ∪ seen_positions s.
Proof.
  destruct d as [dx dy]. unfold Osm20.sub_step.
  by destruct (decide ((nav_x s, nav_y s) ∈ seen_positions s)).
Qed.

Lemma sub_step_trace d s :
  trace (sub_step d s) = trace s ++ pass_events d s.
Proof.
  destruct d as [dx dy]. unfold Osm20.sub_step, Osm20.pass_events.
  destruct (decide ((nav_x s, nav_y s) ∈ seen_positions s)); simpl;
    by rewrite <- ?app_assoc.
Qed.

Lemma sub_step_size d s :
  cropped_image_size (sub_step d s) =
  if decide ((nav_x s, nav_y s) ∈ seen_positions s)
  then cropped_image_size s else Some (crop_image driver dark).
Proof.
  destruct d as [dx dy]. unfold Osm20.sub_step.
  by destruct (decide ((nav_x s, nav_y s) ∈ seen_positions s)).
Qed.

(** What one pass shows: exactly one pan whatever the test says, one
    visit, and a capture or a skip according to the test. *)
Lemma pass_pans d s :
  ∃ mx my, pan_events (pass_events d s) =
           [Drag (name_of_directions d) d.1 d.2 movement_pixels mx my].
Proof.
  unfold Osm20.pass_events.
  destruct (decide ((nav_x s, nav_y s) ∈ seen_positions s)); simpl; eauto.
Qed.

Lemma pass_visited d s :
  visited_positions (pass_events d s) = [(nav_x s, nav_y s)].
Proof.
  unfold Osm20.pass_events.
  by destruct (decide ((nav_x s, nav_y s) ∈ seen_positions s)).
Qed.

Lemma pass_captured d s :
  captured_positions (pass_events d s) =
  if decide ((nav_x s, nav_y s) ∈ seen_positions s) then []
  else [(nav_x s, nav_y s)].
Proof.
  unfold Osm20.pass_events.
  by destruct (decide ((nav_x s, nav_y s) ∈ seen_positions s)).
Qed.

Lemma pass_skipped d s :
  skipped_positions (pass_events d s) =
  if decide ((nav_x s, nav_y s) ∈ seen_positions s) then [(nav_x s, nav_y s)]
  else [].
Proof.
  unfold Osm20.pass_events.
  by destruct (decide ((nav_x s, nav_y s) ∈ seen_positions s)).
Qed.

(** ** The agreement of state and trace is kept by every pass *)

Lemma initial_consistent : consistent initial.
Proof.
  unfold consistent, initial; simpl. split; [constructor|].
  split; [|split; [|done]]; intros p; split; intros Hp.
  - by apply not_elem_of_empty in Hp.
  - by apply not_elem_of_nil in Hp.
  - by apply not_elem_of_nil in Hp.
  - by apply not_elem_of_nil in Hp.
Qed.

Lemma sub_step_consistent d s : consistent s → consistent (sub_step d s).
Proof.
  intros (Hnd & Hseen & Hvis & Hsize). unfold consistent.
  rewrite sub_step_trace, sub_step_seen, sub_step_size.
  rewrite captured_positions_app, visited_positions_app.
  rewrite pass_captured, pass_visited.
  destruct (decide ((nav_x s, nav_y s) ∈ seen_positions s)) as [Hin|Hout].
  - rewrite app_nil_r. split; [done|]. split; [|split; [|done]].
    + intros p. rewrite <- Hseen, elem_of_union, elem_of_singleton.
      split; [intros [->|?]; done|by right].
    + intros p. rewrite elem_of_app, Hvis, list_elem_of_singleton.
      split; [intros [?| ->]; [done|by apply Hseen]|by left].
  - split; [|split; [|split]].
    + apply NoDup_app. split; [done|]. split; [|apply NoDup_singleton].
      intros p Hp ->%list_elem_of_singleton. by apply Hout, Hseen.
    + intros p. rewrite elem_of_app, list_elem_of_singleton, <- Hseen.
      rewrite elem_of_union, elem_of_singleton. tauto.
    + intros p. by rewrite !elem_of_app, Hvis.
    + split; [done|]. intros Heq. by apply app_eq_nil in Heq as [_ ?].
Qed.

(** ** Continuations compose *)

Lemma continues_refl s : continues 0 s s.
Proof. exists []. by rewrite app_nil_r. Qed.

Lemma continues_trans n m s1 s2 s3 :
  continues n s1 s2 → continues m s2 s3 → continues (n + m) s1 s3.
Proof.
  intros (tr & Htr & Hp & Hv) (tr' & Htr' & Hp' & Hv'). exists (tr ++ tr').
  rewrite Htr', Htr, <- app_assoc. split; [done|].
  rewrite pan_events_app, visited_positions_app, !length_app. lia.
Qed.

Lemma sub_step_continues d s : continues 1 s (sub_step d s).
Proof.
  exists (pass_events d s). split; [apply sub_step_trace|].
  rewrite pass_visited. destruct (pass_pans d s) as (mx & my & ->). done.
Qed.

(** ** One side of a ring: [step] passes in one direction *)

Lemma walk_direction_succ k d s :
  0 ≤ k → walk_direction (k + 1) d s = sub_step d (walk_direction k d s).
Proof.
  intros Hk. unfold Osm20.walk_direction.
  by rewrite range_succ, for_each_snoc.
Qed.

Lemma walk_direction_0 d s : walk_direction 0 d s = s.
Proof. reflexivity. Qed.

Lemma walk_direction_position k d s :
  0 ≤ k →
  nav_x (walk_direction k d s) = nav_x s + k * d.1 ∧
  nav_y (walk_direction k d s) = nav_y s + k * d.2.
Proof.
  revert k. apply natlike_ind.
  - rewrite walk_direction_0. lia.
  - intros k Hk [IHx IHy]. unfold Z.succ. rewrite walk_direction_succ by done.
    destruct (sub_step_position d (walk_direction k d s)) as [-> ->]. lia.
Qed.

Lemma walk_direction_seen k d s p :
  0 ≤ k →
  p ∈ seen_positions (walk_direction k d s) ↔
  p ∈ seen_positions s ∨
  ∃ i, 0 ≤ i < k ∧ p = (nav_x s + i * d.1, nav_y s + i * d.2).
Proof.
  revert k. apply natlike_ind.
  - rewrite walk_direction_0. split; [by left|]. intros [?|(i & ? & _)]; [done|lia].
  - intros k Hk IH. unfold Z.succ. rewrite walk_direction_succ by done.
    rewrite sub_step_seen, elem_of_union, elem_of_singleton, IH.
    destruct (walk_direction_position k d s Hk) as [-> ->].
    split.
    + intros [->|[?|(i & ? & ->)]]; [right; exists k|by left|right; exists i];
        (split; [lia|done]).
    + intros [?|(i & Hi & ->)]; [by right; left|].
      destruct (decide (i = k)) as [->|Hne]; [by left|].
      right; right. exists i. split; [lia|done].
Qed.

Lemma walk_direction_continues k d s :
  0 ≤ k → continues k s (walk_direction k d s).
Proof.
  revert k. apply natlike_ind.
  - rewrite walk_direction_0. apply continues_refl.
  - intros k Hk IH. unfold Z.succ. rewrite walk_direction_succ by done.
    eapply continues_trans; [apply IH|apply sub_step_continues].
Qed.

Lemma walk_direction_consistent k d s :
  consistent s → consistent (walk_direction k d s).
Proof.
  unfold Osm20.walk_direction. apply for_each_preserves.
  intros _ s'. apply sub_step_consistent.
Qed.

(** ** A ring: up, right, down, left, [step] passes each *)

Lemma walk_ring_unfold k s :
  walk_ring k s =
  walk_direction k (-1, 0)
    (walk_direction k (0, 1)
       (walk_direction k (1, 0) (walk_direction k (0, -1) s))).
Proof. reflexivity. Qed.

Lemma walk_ring_position k s :
  0 ≤ k →
  nav_x (walk_ring k s) = nav_x s ∧ nav_y (walk_ring k s) = nav_y s.
Proof.
  intros Hk. rewrite walk_ring_unfold.
  repeat match goal with
  | |- context [nav_x (walk_direction k ?d ?s')] =>
      destruct (walk_direction_position k d s' Hk) as [-> ->]
  end.
  simpl. lia.
Qed.

Lemma walk_ring_seen k s p :
  1 ≤ k → nav_x s = 0 → nav_y s = 0 →
  p ∈ seen_positions (walk_ring k s) ↔ p ∈ seen_positions s ∨ on_ring k p.
Proof.
  intros Hk Hx Hy. assert (0 ≤ k) as Hk0 by lia. rewrite walk_ring_unfold.
  rewrite !walk_direction_seen by done.
  repeat match goal with
  | |- context [nav_x (walk_direction k ?d ?s')] =>
      destruct (walk_direction_position k d s' Hk0) as [-> ->]
  end.
  rewrite Hx, Hy. unfold on_ring. destruct p as [px py]. simpl. split.
  - intros [[[[?|(i & ? & [= -> ->])]|(i & ? & [= -> ->])]
             |(i & ? & [= -> ->])]|(i & ? & [= -> ->])];
      [by left|right; lia..].
  - intros [?|Hring]; [by repeat left|].
    destruct (decide (px = 0 ∧ - k < py)) as [[-> ?]|Hup].
    { left; left; left; right. exists (- py). split; [lia|f_equal; lia]. }
    destruct (decide (py = - k ∧ px < k)) as [[-> ?]|Hright].
    { left; left; right. exists px. split; [lia|f_equal; lia]. }
    destruct (decide (px = k ∧ py < 0)) as [[-> ?]|Hdown].
    { left; right. exists (py + k). split; [lia|f_equal; lia]. }
    right. exists (k - px). split; [lia|f_equal; lia].
Qed.

Lemma walk_ring_continues k s : 0 ≤ k → continues (4 * k) s (walk_ring k s).
Proof.
  intros Hk. rewrite walk_ring_unfold.
  replace (4 * k) with (k + k + k + k) by lia.
  repeat (eapply continues_trans; [|by apply walk_direction_continues]).
  by apply walk_direction_continues.
Qed.

Lemma walk_ring_consistent k s : consistent s → consistent (walk_ring k s).
Proof.
  unfold Osm20.walk_ring. apply for_each_preserves.
  intros d s'. apply walk_direction_consistent.
Qed.

(** ** The rings 1 to [steps] *)

Lemma walk_rings_nonpos n s : n ≤ 0 → walk_rings n s = s.
Proof. intros. unfold Osm20.walk_rings. by rewrite range_from_nonpos. Qed.

Lemma walk_rings_succ n s :
  0 ≤ n → walk_rings (n + 1) s = walk_ring (n + 1) (walk_rings n s).
Proof.
  intros. unfold Osm20.walk_rings. by rewrite range_from_succ, for_each_snoc.
Qed.

Lemma walk_rings_position n s :
  0 ≤ n →
  nav_x (walk_rings n s) = nav_x s ∧ nav_y (walk_rings n s) = nav_y s.
Proof.
  revert n. apply natlike_ind.
  - by rewrite walk_rings_nonpos.
  - intros n Hn [IHx IHy]. unfold Z.succ. rewrite walk_rings_succ by done.
    destruct (walk_ring_position (n + 1) (walk_rings n s)) as [-> ->]; [lia|done].
Qed.

Lemma square_grows n p :
  0 ≤ n → (1 ≤ n ∧ in_square n p) ∨ on_ring (n + 1) p ↔ in_square (n + 1) p.
Proof. unfold in_square, on_ring. destruct p as [px py]. simpl. lia. Qed.

Lemma walk_rings_seen n s p :
  0 ≤ n → nav_x s = 0 → nav_y s = 0 →
  p ∈ seen_positions (walk_rings n s) ↔
  p ∈ seen_positions s ∨ (1 ≤ n ∧ in_square n p).
Proof.
  intros Hn Hx Hy. revert n Hn. apply natlike_ind.
  - rewrite walk_rings_nonpos by done. split; [by left|]. intros [?|[? _]]; [done|lia].
  - intros n Hn IH. unfold Z.succ. rewrite walk_rings_succ by done.
    destruct (walk_rings_position n s Hn) as [Hx' Hy'].
    rewrite walk_ring_seen by lia. rewrite IH.
    pose proof (square_grows n p Hn). intuition lia.
Qed.

Lemma walk_rings_continues n s :
  0 ≤ n → continues (2 * n * (n + 1)) s (walk_rings n s).
Proof.
  revert n. apply natlike_ind.
  - rewrite walk_rings_nonpos by done. apply continues_refl.
  - intros n Hn IH. unfold Z.succ. rewrite walk_rings_succ by done.
    replace (2 * (n + 1) * (n + 1 + 1)) with (2 * n * (n + 1) + 4 * (n + 1)) by lia.
    eapply continues_trans; [apply IH|]. apply walk_ring_continues. lia.
Qed.

Lemma walk_rings_consistent n s : consistent s → consistent (walk_rings n s).
Proof.
  unfold Osm20.walk_rings. apply for_each_preserves.
  intros k s'. apply walk_ring_consistent.
Qed.

(** A run of [n] rings passes through the state after its first [k]. *)
Lemma walk_rings_split k n s :
  0 ≤ k ≤ n →
  walk_rings n s =
  for_each (range_from (k + 1) (n + 1)) walk_ring (walk_rings k s).
Proof.
  intros Hk. unfold Osm20.walk_rings, range_from. rewrite <- for_each_app.
  f_equal. replace (n + 1 - 1) with ((k + 1 - 1) + (n + 1 - (k + 1))) by lia.
  rewrite seqZ_app by lia. do 2 f_equal. lia.
Qed.

(** ** The centering loop: two half-step pans per pass, nothing else *)

Lemma centering_pass_trace s :
  ∃ tr, trace (centering_pan "right" (centering_pan "down" s)) = trace s ++ tr ∧
        length (pan_events tr) = 2%nat ∧
        visited_positions tr = [] ∧ captured_positions tr = [].
Proof.
  eexists. split.
  - unfold Osm20.centering_pan. simpl. rewrite <- !app_assoc. simpl. reflexivity.
  - done.
Qed.

Lemma centering_pass_frame s :
  let s' := centering_pan "right" (centering_pan "down" s) in
  nav_x s' = nav_x s ∧ nav_y s' = nav_y s ∧
  seen_positions s' = seen_positions s ∧
  cropped_image_size s' = cropped_image_size s.
Proof. done. Qed.

Lemma centering_nonpos n s : n ≤ 0 → centering n s = s.
Proof. intros. unfold Osm20.centering. by rewrite range_nonpos. Qed.

Lemma centering_succ n s :
  0 ≤ n →
  centering (n + 1) s =
  centering_pan "right" (centering_pan "down" (centering n s)).
Proof. intros. unfold Osm20.centering. by rewrite range_succ, for_each_snoc. Qed.

Lemma centering_frame n s :
  nav_x (centering n s) = nav_x s ∧ nav_y (centering n s) = nav_y s ∧
  seen_positions (centering n s) = seen_positions s ∧
  cropped_image_size (centering n s) = cropped_image_size s.
Proof.
  unfold Osm20.centering.
  apply (for_each_preserves
           (λ s', nav_x s' = nav_x s ∧ nav_y s' = nav_y s ∧
                  seen_positions s' = seen_positions s ∧
                  cropped_image_size s' = cropped_image_size s)); [|done].
  intros _ s' H. by destruct (centering_pass_frame s') as (-> & -> & -> & ->).
Qed.

Lemma centering_trace n s :
  0 ≤ n →
  ∃ tr, trace (centering n s) = trace s ++ tr ∧
        Z.of_nat (length (pan_events tr)) = 2 * n ∧
        visited_positions tr = [] ∧ captured_positions tr = [].
Proof.
  revert n. apply natlike_ind.
  - rewrite centering_nonpos by done. exists []. by rewrite app_nil_r.
  - intros n Hn (tr & Htr & Hp & Hv & Hc). unfold Z.succ.
    rewrite centering_succ by done.
    destruct (centering_pass_trace (centering n s)) as (tr' & -> & Hp' & Hv' & Hc').
    exists (tr ++ tr'). rewrite Htr, <- app_assoc. split; [done|].
    rewrite pan_events_app, visited_positions_app, captured_positions_app.
    rewrite Hv, Hv', Hc, Hc', length_app. split; [lia|done].
Qed.

Lemma centering_consistent n : 0 ≤ n → consistent (centering n initial).
Proof.
  intros Hn. destruct (centering_trace n initial Hn) as (tr & Htr & _ & Hv & Hc).
  destruct (centering_frame n initial) as (_ & _ & Hs & Hz).
  unfold consistent. rewrite Htr, Hs, Hz. simpl. rewrite Hv, Hc.
  apply initial_consistent.
Qed.

(** ** The whole run *)

Lemma centering_pass_events s :
  trace (centering_pan "right" (centering_pan "down" s)) =
  trace s ++ Run.centering_events driver movement_pixels pan_wait_seconds.
Proof.
  unfold Osm20.centering_pan, Run.centering_events. simpl.
  by rewrite <- !app_assoc.
Qed.

(** What holds of every event of a pass holds of every event the loops
    add to the trace. *)
Lemma centering_adds (Q : Event → Prop) n s :
  Forall Q (Run.centering_events driver movement_pixels pan_wait_seconds) →
  ∃ tr, trace (centering n s) = trace s ++ tr ∧ Forall Q tr.
Proof.
  intros HQ. unfold Osm20.centering.
  apply (for_each_preserves (λ s', ∃ tr, trace s' = trace s ++ tr ∧ Forall Q tr)).
  - intros _ s1 (tr & Htr & Hall). rewrite centering_pass_events, Htr, <- app_assoc.
    eexists. split; [done|]. by apply Forall_app.
  - exists []. by rewrite app_nil_r.
Qed.

Lemma walk_rings_adds (Q : Event → Prop) n s :
  (∀ d s', d ∈ directions_values → Forall Q (pass_events d s')) →
  ∃ tr, trace (walk_rings n s) = trace s ++ tr ∧ Forall Q tr.
Proof.
  intros HQ. unfold Osm20.walk_rings.
  apply (for_each_preserves (λ s', ∃ tr, trace s' = trace s ++ tr ∧ Forall Q tr)).
  - intros k s1 Hs1. unfold Osm20.walk_ring. apply for_each_preserves_elem; [|done].
    intros d s2 Hd Hs2. unfold Osm20.walk_direction.
    apply for_each_preserves; [|done]. intros _ s3 (tr & Htr & Hall).
    rewrite sub_step_trace, Htr, <- app_assoc.
    eexists. split; [done|]. apply Forall_app. split; [done|]. by apply HQ.
  - exists []. by rewrite app_nil_r.
Qed.

(** The distances of pans that were all asked for with the same one. *)
Lemma pan_steps_asked (pixels : Z) (tr : list Event) :
  Forall (Run.asked_for pixels) tr →
  (pan_steps tr).*2 = replicate (length (pan_events tr)) pixels.
Proof.
  induction 1 as [|e tr He _ IH]; [done|].
  destruct e; cbn [pan_steps pan_events is_pan length replicate]; [done| |done..].
  rewrite fmap_cons, IH. cbn [Run.asked_for] in He. by subst.
Qed.

Lemma fetch_map_run_consistent n : consistent (fetch_map_run n).
Proof.
  unfold Osm20.fetch_map_run. apply walk_rings_consistent.
  destruct (decide (0 ≤ n)); [by apply centering_consistent|].
  rewrite centering_nonpos by lia. apply initial_consistent.
Qed.

Lemma fetch_map_run_seen n p :
  0 ≤ n → p ∈ seen_positions (fetch_map_run n) ↔ 1 ≤ n ∧ in_square n p.
Proof.
  intros Hn. unfold Osm20.fetch_map_run.
  destruct (centering_frame n initial) as (Hx & Hy & Hs & _).
  rewrite walk_rings_seen, Hs by done. simpl.
  split; [intros [Hp|?]; [by apply not_elem_of_empty in Hp|done]|by right].
Qed.

(** The size is unbound or the size of a crop. *)
Lemma fetch_map_run_size n :
  cropped_image_size (fetch_map_run n) = None ∨
  cropped_image_size (fetch_map_run n) = Some (crop_image driver dark).
Proof.
  unfold Osm20.fetch_map_run, Osm20.walk_rings.
  apply for_each_preserves; [intros k s Hs|].
  - unfold Osm20.walk_ring. apply for_each_preserves; [intros d s1 Hs1|done].
    unfold Osm20.walk_direction. apply for_each_preserves; [intros _ s2 Hs2|done].
    rewrite sub_step_size. by destruct (decide _); [|right].
  - left. by destruct (centering_frame n initial) as (_ & _ & _ & ->).
Qed.

(** The trace of a run: the centering pans, then the passes of the rings. *)
Lemma fetch_map_run_continues n :
  0 ≤ n → continues (2 * n * (n + 1)) (centering n initial) (fetch_map_run n).
Proof. intros. by apply walk_rings_continues. Qed.

Lemma fetch_map_returns n :
  1 ≤ n → fetch_map n = Returned (crop_image driver dark).
Proof.
  intros Hn. unfold Osm20.fetch_map.
  destruct (fetch_map_run_consistent n) as (_ & Hseen & _ & Hsize).
  destruct (fetch_map_run_size n) as [Hnone| ->]; [|done].
  apply Hsize in Hnone.
  assert ((0, 0) ∈ seen_positions (fetch_map_run n)) as Hin.
  { apply fetch_map_run_seen; [lia|]. unfold in_square. simpl. lia. }
  apply Hseen in Hin. rewrite Hnone in Hin. by apply not_elem_of_nil in Hin.
Qed.

End Facts.

(** ** The cells of the square, counted *)

Lemma length_bind_const {A B} (f : A → list B) (c : nat) (l : list A) :
  (∀ x, length (f x) = c) → length (l ≫= f) = (length l * c)%nat.
Proof.
  intros Hf. induction l as [|x l IH]; [done|].
  rewrite bind_cons, length_app, Hf, IH. simpl. lia.
Qed.

Lemma square_cells_elem n p : p ∈ square_cells n ↔ in_square n p.
Proof.
  unfold square_cells, in_square. rewrite list_elem_of_bind. split.
  - intros (x & (y & -> & Hy)%list_elem_of_fmap & Hx).
    apply elem_of_seqZ in Hx, Hy. simpl. lia.
  - intros [Hx Hy]. exists p.1. rewrite list_elem_of_fmap, elem_of_seqZ. split; [|lia].
    exists p.2. rewrite elem_of_seqZ. split; [by destruct p|lia].
Qed.

Lemma square_cells_NoDup n : NoDup (square_cells n).
Proof.
  unfold square_cells. apply NoDup_bind; [| |apply NoDup_seqZ].
  - intros x1 x2 p _ _ (y1 & -> & _)%list_elem_of_fmap (y2 & [= -> _] & _)%list_elem_of_fmap.
    done.
  - intros x _. apply NoDup_fmap_2; [|apply NoDup_seqZ]. by intros y1 y2 [= ->].
Qed.

Lemma square_cells_length n :
  0 ≤ n → Z.of_nat (length (square_cells n)) = (n + 1) * (n + 1).
Proof.
  intros Hn. unfold square_cells.
  rewrite (length_bind_const _ (Z.to_nat (n + 1))).
  - rewrite length_seqZ. nia.
  - intros x. by rewrite length_fmap, length_seqZ.
Qed.

End NavFacts.

(** * The walk of [fetch_map] *)

Section Walk.
Import Osm20 Run TraceFacts NavFacts.

Variable driver : Driver.
Variable dark : Dark.
Variable movement_pixels : Z.
Variable pan_wait_seconds : Z.

Local Abbreviation sub_step :=
  (sub_step driver dark movement_pixels pan_wait_seconds).
Local Abbreviation pass_events :=
  (pass_events driver dark movement_pixels pan_wait_seconds).
Local Abbreviation walk_ring :=
  (walk_ring driver dark movement_pixels pan_wait_seconds).
Local Abbreviation walk_rings :=
  (walk_rings driver dark movement_pixels pan_wait_seconds).
Local Abbreviation centering :=
  (centering driver movement_pixels pan_wait_seconds).
Local Abbreviation fetch_map_run :=
  (fetch_map_run driver dark movement_pixels pan_wait_seconds).
Local Abbreviation fetch_map :=
  (fetch_map driver dark movement_pixels pan_wait_seconds).

(** The pans a run is made of: [2 N] centering pans asked for with
    [movement_pixels // 2], then [2 N (N + 1)] ring pans asked for with
    [movement_pixels], each drag being the one [pan_with_mouse] computes. *)
Lemma run_pans (N : Z) :
  0 ≤ N →
  ∃ centering_trace ring_trace,
    trace (centering N initial) = centering_trace ∧
    trace (fetch_map_run N) = centering_trace ++ ring_trace ∧
    Z.of_nat (length (pan_events centering_trace)) = 2 * N ∧
    Z.of_nat (length (pan_events ring_trace)) = 2 * N * (N + 1) ∧
    Forall (asked_for (movement_pixels / 2)) centering_trace ∧
    Forall (asked_for movement_pixels) ring_trace ∧
    Forall (drag_as_computed driver) (centering_trace ++ ring_trace).
Proof.
  intros HN.
  destruct (centering_trace driver movement_pixels pan_wait_seconds N initial)
    as (tc & Htc & Hpc & _); [lia|].
  destruct (fetch_map_run_continues driver dark movement_pixels
              pan_wait_seconds N) as (tr & Htr & Hp & _); [lia|].
  simpl in Htc. exists tc, tr. split; [done|]. rewrite Htr, Htc.
  split; [done|]. split; [done|]. split; [done|].
  assert (∀ Q : Event → Prop,
            Forall Q (centering_events driver movement_pixels pan_wait_seconds) →
            Forall Q tc) as Hall_c.
  { intros Q HQ.
    destruct (centering_adds driver movement_pixels pan_wait_seconds Q N
                initial HQ) as (tc' & Htc' & Hall).
    rewrite Htc in Htc'. simpl in Htc'. by subst tc'. }
  assert (∀ Q : Event → Prop,
            (∀ d s, d ∈ directions_values → Forall Q (pass_events d s)) →
            Forall Q tr) as Hall_r.
  { intros Q HQ.
    destruct (walk_rings_adds driver dark movement_pixels pan_wait_seconds Q N
                (Osm20.centering driver movement_pixels pan_wait_seconds N
                   initial) HQ) as (tr' & Htr' & Hall).
    change (trace (fetch_map_run N) = trace (centering N initial) ++ tr') in Htr'.
    rewrite Htr in Htr'. apply app_inv_head in Htr'. by subst tr'. }
  split; [|split; [|apply Forall_app; split]].
  - apply Hall_c. unfold centering_events. by repeat constructor.
  - apply Hall_r. intros d s _. unfold Osm20.pass_events.
    destruct (decide _); by repeat constructor.
  - apply Hall_c. unfold centering_events. by repeat constructor.
  - apply Hall_r. intros d s _. unfold Osm20.pass_events.
    destruct (decide _); by repeat constructor.
Qed.

(** C2, as amended.  With [N >= 1] rings the trace of a run is the trace of
    the centering loop followed by the trace of the rings.  The centering
    loop makes [2 N] pans, each asked for with half the pan distance
    ([movement_pixels // 2]); the rings make exactly [4 N (N + 1) / 2]
    pans, each asked for with the full pan distance; so a whole run makes
    [4 N (N + 1) / 2 + 2 N] pans. *)
Theorem pan_events_of_a_run (N : Z) :
  1 ≤ N →
  ∃ centering_trace ring_trace,
    trace (centering N initial) = centering_trace ∧
    trace (fetch_map_run N) = centering_trace ++ ring_trace ∧
    Z.of_nat (length (pan_events centering_trace)) = 2 * N ∧
    Z.of_nat (length (pan_events ring_trace)) = 4 * N * (N + 1) / 2 ∧
    Z.of_nat (length (pan_events (trace (fetch_map_run N)))) =
      4 * N * (N + 1) / 2 + 2 * N ∧
    (pan_steps centering_trace).*2 =
      replicate (Z.to_nat (2 * N)) (movement_pixels / 2) ∧
    (pan_steps ring_trace).*2 =
      replicate (Z.to_nat (4 * N * (N + 1) / 2)) movement_pixels.
Proof.
  intros HN.
  replace (4 * N * (N + 1)) with (2 * N * (N + 1) * 2) by lia.
  rewrite Z.div_mul by done.
  destruct (run_pans N) as (tc & tr & Htc & Htr & Hpc & Hpr & Hc & Hr & _);
    [lia|].
  exists tc, tr. rewrite Htr, pan_events_app, length_app.
  split; [done|]. split; [done|]. split; [done|]. split; [done|].
  split; [lia|].
  rewrite (pan_steps_asked _ _ Hc), (pan_steps_asked _ _ Hr).
  split; f_equal; lia.
Qed.

(** C3.  Each pass of the loop body tests the current position against
    [seen_positions]: if it is there the screenshot is skipped, otherwise
    it is taken; either way exactly one pan follows and the position is
    recorded.  Over a run with [N >= 1] no position is captured twice, the
    seen set is the set of captured positions, and the captured positions
    are exactly the positions visited (every skip is at a captured one). *)
Theorem capture_at_most_once_per_position (N : Z) :
  1 ≤ N →
  (∀ d s,
     let pos := (nav_x s, nav_y s) in
     let events := pass_events d s in
     trace (sub_step d s) = trace s ++ events ∧
     length (pan_events events) = 1%nat ∧
     (pos ∈ seen_positions s →
      captured_positions events = [] ∧ skipped_positions events = [pos]) ∧
     (pos ∉ seen_positions s →
      captured_positions events = [pos] ∧ skipped_positions events = []) ∧
     seen_positions (sub_step d s) = {[ pos ]} ∪ seen_positions s) ∧
  let final := fetch_map_run N in
  let captured := captured_positions (trace final) in
  NoDup captured ∧
  (∀ p, p ∈ seen_positions final ↔ p ∈ captured) ∧
  (∀ p, p ∈ visited_positions (trace final) ↔ p ∈ captured) ∧
  (∀ p, p ∈ skipped_positions (trace final) → p ∈ captured) ∧
  (0, 0) ∈ captured.
Proof.
  intros HN. split.
  - intros d s pos events. subst pos events.
    split; [apply sub_step_trace|].
    split; [by destruct (pass_pans driver dark movement_pixels
                           pan_wait_seconds d s) as (mx & my & ->)|].
    rewrite pass_captured, pass_skipped, sub_step_seen.
    by destruct (decide ((nav_x s, nav_y s) ∈ seen_positions s)).
  - destruct (fetch_map_run_consistent driver dark movement_pixels
                pan_wait_seconds N) as (Hnd & Hseen & Hvis & _).
    simpl. split; [done|]. split; [done|]. split; [done|]. split.
    + intros p Hp. by apply Hvis, skipped_visited.
    + apply Hseen, fetch_map_run_seen; [lia|]. unfold in_square. simpl. lia.
Qed.

(** C4, as amended.  With one ring the walk pans once in each of the four
    directions up, right, down, left, each from where the pan before left
    it: it stands at (0,0), (0,-1), (1,-1), (1,0), takes a screenshot at
    each of the four, skips none, and ends at (0,0) again.  The two pans
    of the centering loop come first. *)
Theorem single_ring_walk :
  let final := fetch_map_run 1 in
  pan_steps (trace final) =
    [("down"%string, movement_pixels / 2); ("right"%string, movement_pixels / 2);
     ("up"%string, movement_pixels); ("right"%string, movement_pixels);
     ("down"%string, movement_pixels); ("left"%string, movement_pixels)] ∧
  visited_positions (trace final) = [(0, 0); (0, -1); (1, -1); (1, 0)] ∧
  captured_positions (trace final) = [(0, 0); (0, -1); (1, -1); (1, 0)] ∧
  skipped_positions (trace final) = [] ∧
  (nav_x final, nav_y final) = (0, 0).
Proof. split_and!; reflexivity. Qed.

(** C8.  With no ring nothing is panned and nothing captured, and the
    [return] finds [cropped_image_size] unbound. *)
Theorem zero_rings_raise :
  trace (fetch_map_run 0) = [] ∧ fetch_map 0 = Raised UnboundLocalError.
Proof. split; reflexivity. Qed.


(** C10.  With [N >= 1] rings the positions captured are exactly the cells
    (x, y) with 0 <= x <= N and -N <= y <= 0, each once, (N + 1)^2 in all;
    and after each ring the walk is back at (0, 0). *)
Theorem captured_region_is_corner_square (N : Z) :
  1 ≤ N →
  let captured := captured_positions (trace (fetch_map_run N)) in
  (∀ x y, (x, y) ∈ captured ↔ 0 ≤ x ≤ N ∧ - N ≤ y ≤ 0) ∧
  NoDup captured ∧
  Z.of_nat (length captured) = (N + 1) ^ 2 ∧
  (∀ p, p ∈ captured → 0 ≤ p.1 ∧ p.2 ≤ 0) ∧
  (∀ k, 0 ≤ k ≤ N →
     let after_ring_k := walk_rings k (centering N initial) in
     fetch_map_run N =
       for_each (range_from (k + 1) (N + 1)) walk_ring after_ring_k ∧
     (nav_x after_ring_k, nav_y after_ring_k) = (0, 0)).
Proof.
  intros HN captured.
  destruct (fetch_map_run_consistent driver dark movement_pixels
              pan_wait_seconds N) as (Hnd & Hseen & _ & _).
  assert (∀ p, p ∈ captured ↔ in_square N p) as Hsq.
  { intros p. unfold captured. rewrite <- Hseen, fetch_map_run_seen by lia.
    split; [by intros [_ ?]|by split]. }
  split; [intros x y; apply Hsq|]. split; [done|]. split; [|split].
  - rewrite (Permutation_length (l' := square_cells N)).
    + rewrite square_cells_length by lia. lia.
    + apply NoDup_Permutation; [done|apply square_cells_NoDup|].
      intros p. by rewrite Hsq, square_cells_elem.
  - intros p Hp%Hsq. unfold in_square in Hp. lia.
  - intros k Hk after_ring_k. subst after_ring_k. split.
    { unfold Osm20.fetch_map_run. rewrite (walk_rings_split _ _ _ _ k N) by lia.
      reflexivity. }
    destruct (walk_rings_position driver dark movement_pixels pan_wait_seconds
                k (centering N initial)) as [-> ->]; [lia|].
    by destruct (centering_frame driver movement_pixels pan_wait_seconds N
                   initial) as (-> & -> & _).
Qed.

End Walk.

(** * The assembler *)

Module AsmFacts.
Import Osm20.

(** An event among the events of a run is in one of its parts. *)
Ltac split_elem H :=
  repeat (rewrite elem_of_app in H || rewrite list_elem_of_singleton in H);
  repeat match type of H with _ ∨ _ => destruct H as [H|H] end.

(** ** The size of the canvas *)

Lemma usable_size (size : Z * Z) :
  0 < size.1 → 0 < size.2 → refused_size size = false ∧ empty_size size = false.
Proof.
  intros H1 H2. unfold refused_size, empty_size. split; apply orb_false_iff.
  - split; apply Z.ltb_ge; lia.
  - split; apply Z.eqb_neq; lia.
Qed.

Lemma refused_size_iff (size : Z * Z) :
  refused_size size = true ↔ size.1 < 0 ∨ size.2 < 0.
Proof. unfold refused_size. by rewrite orb_true_iff, !Z.ltb_lt. Qed.

Lemma canvas_size_positive p size N :
  0 ≤ p → 0 ≤ N → 0 ≤ size.1 → 0 ≤ size.2 →
  0 < (canvas_size p size N).1 ∧ 0 < (canvas_size p size N).2.
Proof.
  destruct size as [w h]. unfold canvas_size, fixed_margin. simpl. nia.
Qed.

Section Parsed.
Context `{!UnicodeInt}.

Lemma insert_sorted_elem (a x : string) (l : list string) :
  x ∈ insert_sorted a l ↔ x = a ∨ x ∈ l.
Proof.
  induction l as [|b l IH]; simpl.
  - rewrite list_elem_of_singleton, elem_of_nil. tauto.
  - destruct (String.leb a b); rewrite !elem_of_cons, ?IH; tauto.
Qed.

Lemma sorted_elem (x : string) (l : list string) : x ∈ sorted l ↔ x ∈ l.
Proof.
  unfold sorted. induction l as [|a l IH]; [done|].
  simpl. rewrite insert_sorted_elem, elem_of_cons, IH. tauto.
Qed.

(** The collecting loop only prints, and only the skip message. *)
Lemma collect_prints dir files found out :
  ∃ extra, (collect dir files found out).1 = out ++ extra ∧
           ∀ e, e ∈ extra → ∃ name, name ∈ files ∧ e = Print (skip_message name).
Proof.
  revert found out. induction files as [|name files IH]; intros found out; simpl.
  { exists []. rewrite app_nil_r. split; [done|]. by intros e ?%elem_of_nil. }
  destruct (endswith name ".png").
  - destruct (parse_position name) as [pos|[]].
    + destruct (IH (found ++ [(path_join dir name, pos)]) out) as (extra & -> & Hex).
      exists extra. split; [done|]. intros e (n & ? & ->)%Hex.
      exists n. split; [by right|done].
    + destruct (IH found (out ++ [Print (skip_message name)])) as (extra & -> & Hex).
      exists (Print (skip_message name) :: extra).
      split; [by rewrite <- app_assoc|].
      intros e [->|(n & ? & ->)%Hex]%elem_of_cons.
      * exists name. split; [by left|done].
      * exists n. split; [by right|done].
    + exists []. rewrite app_nil_r. split; [done|]. by intros e ?%elem_of_nil.
    + exists []. rewrite app_nil_r. split; [done|]. by intros e ?%elem_of_nil.
    + exists []. rewrite app_nil_r. split; [done|]. by intros e ?%elem_of_nil.
  - destruct (IH found out) as (extra & -> & Hex).
    exists extra. split; [done|]. intros e (n & ? & ->)%Hex.
    exists n. split; [by right|done].
Qed.

(** Every tile collected comes from a name that ends in [.png] and parses. *)
Lemma collect_tiles dir files found out tiles :
  (collect dir files found out).2 = Returned tiles →
  ∀ t, t ∈ tiles →
       t ∈ found ∨
       ∃ name pos, name ∈ files ∧ endswith name ".png" = true ∧
                   parse_position name = Returned pos ∧
                   t = (path_join dir name, pos).
Proof.
  revert found out. induction files as [|name files IH]; intros found out; simpl.
  { intros [= ->] t Ht. by left. }
  destruct (endswith name ".png") eqn:Hpng.
  - destruct (parse_position name) as [pos|[]] eqn:Hparse; [| |done..].
    + intros Hc t Ht. destruct (IH _ _ Hc t Ht) as [Hin|(n & q & ? & ? & ? & ->)].
      * apply elem_of_app in Hin as [?|Heq%list_elem_of_singleton]; [by left|].
        subst t. right. exists name, pos. split; [by left|done].
      * right. exists n, q. split; [by right|done].
    + intros Hc t Ht. destruct (IH _ _ Hc t Ht) as [?|(n & q & ? & ? & ? & ->)];
        [by left|]. right. exists n, q. split; [by right|done].
  - intros Hc t Ht. destruct (IH _ _ Hc t Ht) as [?|(n & q & ? & ? & ? & ->)];
      [by left|]. right. exists n, q. split; [by right|done].
Qed.

(** What the loop returns begins with what it was given. *)
Lemma collect_grows dir files found out :
  (∃ e, (collect dir files found out).2 = Raised e) ∨
  ∃ rest, (collect dir files found out).2 = Returned (found ++ rest).
Proof.
  revert found out. induction files as [|name files IH]; intros found out; simpl.
  { right. exists []. by rewrite app_nil_r. }
  destruct (endswith name ".png"); [|apply IH].
  destruct (parse_position name) as [pos|[]]; [|apply IH|left; eauto..].
  destruct (IH (found ++ [(path_join dir name, pos)]) out) as [?|(rest & ->)];
    [by left|].
  right. exists ((path_join dir name, pos) :: rest). by rewrite <- app_assoc.
Qed.

(** The loop ends, and with what it had, when every name either does not
    end in [.png] or fails with a ValueError; a ValueError is logged. *)
Lemma collect_all_skipped dir files found out :
  (∀ name, name ∈ files →
     endswith name ".png" = false ∨ parse_position name = Raised ValueError) →
  (collect dir files found out).2 = Returned found.
Proof.
  revert found out. induction files as [|name files IH]; intros found out Hall;
    simpl; [done|].
  assert (∀ n, n ∈ files →
            endswith n ".png" = false ∨ parse_position n = Raised ValueError)
    as Hrest by (intros n ?; apply Hall; by right).
  destruct (Hall name) as [-> | Hv]; [by left|by apply IH|].
  rewrite Hv. destruct (endswith name ".png"); by apply IH.
Qed.

Lemma collect_empty_inv dir files found out :
  (collect dir files found out).2 = Returned [] →
  ∀ name, name ∈ files →
    endswith name ".png" = false ∨ parse_position name = Raised ValueError.
Proof.
  revert found out. induction files as [|name files IH]; intros found out; simpl.
  { by intros _ n ?%elem_of_nil. }
  destruct (endswith name ".png") eqn:Hpng.
  - destruct (parse_position name) as [pos|[]] eqn:Hparse; [| |done..].
    + intros Hc. exfalso.
      destruct (collect_grows dir files (found ++ [(path_join dir name, pos)]) out)
        as [(e & He)|(rest & He)]; rewrite Hc in He; [done|].
      injection He as He. symmetry in He.
      apply app_eq_nil in He as [[_ [=]]%app_eq_nil _].
    + intros Hc n [->|?]%elem_of_cons; [by right|by eapply IH].
  - intros Hc n [->|?]%elem_of_cons; [by left|by eapply IH].
Qed.

(** The only exceptions of the parse: a part that is missing, or a part
    that is no integer. *)
Lemma parse_position_raises name e :
  parse_position name = Raised e → e = ValueError ∨ e = IndexError.
Proof.
  unfold parse_position.
  repeat match goal with
  | |- context [match ?o with Some _ => _ | None => _ end] => destruct o
  end; intros [= <-]; auto.
Qed.

(** Without an IndexError the loop ends. *)
Lemma collect_returns dir files found out :
  (∀ name, name ∈ files → endswith name ".png" = true →
           parse_position name ≠ Raised IndexError) →
  ∃ tiles, (collect dir files found out).2 = Returned tiles.
Proof.
  revert found out. induction files as [|name files IH]; intros found out Hall;
    simpl; [by eexists|].
  assert (∀ n, n ∈ files → endswith n ".png" = true →
               parse_position n ≠ Raised IndexError)
    as Hrest by (intros n ?; apply Hall; by right).
  destruct (endswith name ".png") eqn:Hpng; [|by apply IH].
  destruct (parse_position name) as [pos|e] eqn:Hparse; [by apply IH|].
  destruct (parse_position_raises _ _ Hparse) as [-> | ->]; [by apply IH|].
  by destruct (Hall name (list_elem_of_here _ _) Hpng).
Qed.

Section Assembly.

Variable listdir : list string.
Variable image_size : string → Z * Z.
Variables cropped_dir output_base_filename : string.
Variable movement_pixels : Z.
Variable cropped_image_size : Z * Z.
Variables zoom_level steps : Z.

Local Abbreviation assembled :=
  (assemble_image_details listdir image_size cropped_dir output_base_filename
     movement_pixels cropped_image_size zoom_level steps).
Local Abbreviation canvas :=
  (canvas_size movement_pixels cropped_image_size steps).

(** The canvas allocated is [canvas_size], and every paste is of a tile of
    the listing at the offset [paste_offset] gives for its position. *)
Lemma assemble_events :
  (∀ c, NewImage c ∈ assembled.1 → c = canvas) ∧
  (∀ img off sz, Paste img off sz ∈ assembled.1 →
     ∃ name pos, name ∈ listdir ∧ parse_position name = Returned pos ∧
                 img = path_join cropped_dir name ∧ sz = image_size img ∧
                 off = paste_offset (canvas_center canvas) movement_pixels pos sz).
Proof.
  unfold assemble_image_details.
  destruct (collect_prints cropped_dir (sorted listdir) [] []) as (extra & Hout & Hex).
  pose proof (collect_tiles cropped_dir (sorted listdir) [] []) as Htiles.
  destruct (collect cropped_dir (sorted listdir) [] []) as [out [tiles|e]].
  2:{ simpl in *. subst out. split; [intros c (n & _ & [=])%Hex|].
      by intros img off sz (n & _ & [=])%Hex. }
  simpl in Hout. subst out. specialize (Htiles tiles eq_refl).
  set (pasted := tiles ≫= paste_tile image_size (canvas_center canvas)
                            movement_pixels).
  assert (∀ c, NewImage c ∉ extra) as Hnew
    by (by intros c (n & _ & [=])%Hex).
  assert (∀ img off sz, Paste img off sz ∉ extra) as Hpaste
    by (by intros img off sz (n & _ & [=])%Hex).
  assert (∀ c, NewImage c ∉ pasted) as Hnew'.
  { intros c ([img pos] & Hc & _)%list_elem_of_bind. simpl in Hc.
    by apply elem_of_cons in Hc as [[=]|[=]%list_elem_of_singleton]. }
  assert (∀ img off sz, Paste img off sz ∈ pasted →
            ∃ name pos, name ∈ listdir ∧ parse_position name = Returned pos ∧
                        img = path_join cropped_dir name ∧ sz = image_size img ∧
                        off = paste_offset (canvas_center canvas)
                                movement_pixels pos sz) as Hpaste'.
  { intros img off sz ([img' pos] & Hc & Hin)%list_elem_of_bind. simpl in Hc.
    apply elem_of_cons in Hc as [[=]|[= -> -> ->]%list_elem_of_singleton].
    destruct (Htiles _ Hin) as [[]%elem_of_nil|(name & q & Hn & _ & Hp & [= -> ->])].
    exists name, q. by rewrite <- sorted_elem. }
  destruct tiles as [|t tiles];
    [|destruct (refused_size canvas); [|destruct (empty_size canvas)]];
    cbn [fst]; (split; [intros c Hin|intros img off sz Hin]);
    split_elem Hin;
    first [by destruct (Hnew _ Hin) | by destruct (Hpaste _ _ _ Hin)
          | by destruct (Hnew' _ Hin) | by apply Hpaste'
          | by injection Hin | discriminate Hin ].
Qed.

End Assembly.

(** The canvas has room for every tile up to [steps] cells from the origin. *)
Lemma offset_within_canvas p N w h x y :
  0 < p → 1 ≤ N → Z.abs x ≤ N → Z.abs y ≤ N →
  within_canvas (canvas_size p (w, h) N)
    (paste_offset (canvas_center (canvas_size p (w, h) N)) p (x, y) (w, h)) (w, h).
Proof.
  intros Hp HN Hx Hy. unfold within_canvas, canvas_size, canvas_center,
    paste_offset, fixed_margin. simpl.
  replace (w + p * N * 2 + 6000) with (w + (p * N + 3000) * 2) by lia.
  replace (h + p * N * 2 + 6000) with (h + (p * N + 3000) * 2) by lia.
  rewrite !Z.div_add by done.
  assert (0 ≤ p * (N - x) ≤ p * (2 * N)) by nia.
  assert (0 ≤ p * (N - y) ≤ p * (2 * N)) by nia.
  lia.
Qed.

End Parsed.

End AsmFacts.

(** * Where the tiles are pasted *)

Section Pasting.
Import Osm20 AsmFacts.
Context `{!UnicodeInt}.

(** In [osm20.py] every paste of a run is at
    (center_x - x p - w // 2, center_y - y p - h // 2), for the position
    (x, y) parsed from the tile's name and the size (w, h) of its image. *)
Lemma osm20_pastes_by_formula listdir image_size cropped_dir base p size zoom
    steps img off sz :
  Paste img off sz ∈
    (assemble_image_details listdir image_size cropped_dir base p size zoom
       steps).1 →
  ∃ name x y,
    name ∈ listdir ∧ parse_position name = Returned (x, y) ∧
    img = path_join cropped_dir name ∧ sz = image_size img ∧
    let center := canvas_center (canvas_size p size steps) in
    off = (center.1 - x * p - sz.1 / 2, center.2 - y * p - sz.2 / 2).
Proof.
  intros Hin.
  destruct (assemble_events listdir image_size cropped_dir base p size zoom steps)
    as [_ Hpaste].
  destruct (Hpaste _ _ _ Hin) as (name & [x y] & ? & ? & ? & ? & ->).
  exists name, x, y. repeat (split; [done|]).
  unfold paste_offset. by destruct (canvas_center _), sz.
Qed.

(** With tiles of 400 x 300 and a pan distance of 800, in [osm20.py] the
    tile at (0, 0) has its middle at the center and the tile at (1, 0) is
    pasted 800 to the left of it, at the same height. *)
Lemma osm20_uniform_tiles center :
  let at_origin := Osm20.paste_offset center 800 (0, 0) (400, 300) in
  let right_of_it := Osm20.paste_offset center 800 (1, 0) (400, 300) in
  (at_origin.1 + 400 / 2, at_origin.2 + 300 / 2) = center ∧
  right_of_it = (at_origin.1 - 800, at_origin.2).
Proof.
  destruct center as [cx cy]. unfold paste_offset. simpl.
  split; f_equal; lia.
Qed.

(** C1, at the input where [osm19.py] departs from it.  With one ring, a
    pan distance of 800 and a tile of 400 x 300 at (0, 0), the canvas of
    [osm19.py] has its center at (1000, 950); the offset the claim gives is
    (800, 800), which is what the formula of [osm20.py] yields there, but
    [osm19.py] pastes at (850, 750): it takes half the height from x and
    half the width from y, so the middle of the tile is not the center. *)
Theorem osm19_offset_swaps_half_sizes :
  let center := Osm19.canvas_center (Osm19.canvas_size 800 (400, 300) 1) in
  let pasted := Osm19.paste_offset center 800 (0, 0) (400, 300) in
  center = (1000, 950) ∧
  (center.1 - 0 * 800 - 400 / 2, center.2 - 0 * 800 - 300 / 2) = (800, 800) ∧
  Osm20.paste_offset center 800 (0, 0) (400, 300) = (800, 800) ∧
  pasted = (850, 750) ∧
  (pasted.1 + 400 / 2, pasted.2 + 300 / 2) ≠ center.
Proof. split_and!; [reflexivity..|]. by vm_compute. Qed.

(** C7, at the input where the code departs from it.  A name with fewer
    than three parts makes [parts[1]] or [parts[2]] an IndexError, which
    the [except ValueError] does not catch: the whole assembly ends with
    it, before any print, canvas, paste or save, although a good tile is
    in the directory.  A name whose parts are no integers is a
    ValueError: it is logged and skipped, and the good tile is pasted. *)
Theorem short_name_aborts_assembly :
  parse_position "map.png" = Raised IndexError ∧
  assemble_image_details ["map.png"; "screenshot_0_0.png"]%string
    (λ _, (400, 300)) "cropped_images" "map" 800 (400, 300) 13 1 =
    ([], Raised IndexError) ∧
  assemble_image_details ["screenshot_a_b.png"; "screenshot_0_0.png"]%string
    (λ _, (400, 300)) "cropped_images" "map" 800 (400, 300) 13 1 =
    ([Print (skip_message "screenshot_a_b.png"); NewImage (8000, 7900);
      OpenImage "cropped_images/screenshot_0_0.png";
      Paste "cropped_images/screenshot_0_0.png" (3800, 3800) (400, 300);
      Save "map_steps1_zoom13_8000x7900px.png"],
     Returned ()).
Proof. split_and!; by vm_compute. Qed.

End Pasting.

(** * The statements at concrete runs *)

Section Instances.
Import Osm20 Run.
Local Existing Instance ascii_digits_only.

Local Abbreviation sample_run N :=
  (fetch_map_run sample_driver main_dark main_movement_pixels
     main_pan_wait_seconds N).

(** C2 as stated fails with one ring: the run makes six pans, the two of
    the centering loop and the four of the ring, not 4 * 1 * 2 / 2 = 4. *)
Lemma one_ring_makes_six_pans :
  Z.of_nat (length (pan_events (trace (sample_run 1)))) = 6 ∧
  Z.of_nat (length (pan_events (trace (sample_run 1)))) ≠ 4 * 1 * (1 + 1) / 2.
Proof. split; by vm_compute. Qed.

Lemma pan_events_of_a_run_witness :
  1 ≤ 2 ∧
  Z.of_nat (length (pan_events (trace (sample_run 2)))) = 4 * 2 * (2 + 1) / 2 + 2 * 2.
Proof.
  split; [lia|].
  destruct (pan_events_of_a_run sample_driver main_dark main_movement_pixels
              main_pan_wait_seconds 2) as (tc & tr & _ & _ & _ & _ & H & _);
    [lia|exact H].
Defined.

Lemma capture_at_most_once_per_position_witness :
  1 ≤ 2 ∧ NoDup (captured_positions (trace (sample_run 2))) ∧
  (0, 0) ∈ captured_positions (trace (sample_run 2)).
Proof.
  split; [lia|].
  destruct (capture_at_most_once_per_position sample_driver main_dark
              main_movement_pixels main_pan_wait_seconds 2)
    as (_ & Hnd & _ & _ & _ & Hin); [lia|].
  split; [exact Hnd|exact Hin].
Defined.

(** C4 as stated fails: with one ring the origin itself is captured, and it
    is none of its own four neighbours. *)
Lemma one_ring_captures_the_origin :
  ¬ (∀ p, p ∈ captured_positions (trace (sample_run 1)) ↔
          p ∈ [(0, -1); (1, 0); (0, 1); (-1, 0)]).
Proof.
  intros H. assert ((0, 0) ∈ captured_positions (trace (sample_run 1))) as Hin
    by (vm_compute; left).
  apply H in Hin. repeat (apply elem_of_cons in Hin as [[=]|Hin]).
  by apply elem_of_nil in Hin.
Qed.



Lemma captured_region_is_corner_square_witness :
  1 ≤ 2 ∧
  Z.of_nat (length (captured_positions (trace (sample_run 2)))) = (2 + 1) ^ 2.
Proof.
  split; [lia|].
  apply (captured_region_is_corner_square sample_driver main_dark
           main_movement_pixels main_pan_wait_seconds 2). lia.
Defined.

End Instances.

(** * Strings: what the names of the screenshots parse to *)

Module StringFacts.

Lemma string_app_cons (c : ascii) (s t : string) :
  String c s +:+ t = String c (s +:+ t).
Proof. reflexivity. Qed.

Lemma string_app_nil_r (s : string) : s +:+ "" = s.
Proof. induction s as [|c s IH]; [done|]. by rewrite string_app_cons, IH. Qed.

Lemma string_app_assoc (s t u : string) : (s +:+ t) +:+ u = s +:+ t +:+ u.
Proof. induction s as [|c s IH]; [done|]. by rewrite !string_app_cons, IH. Qed.

Lemma all_chars_app test (s t : string) :
  all_chars test (s +:+ t) = all_chars test s && all_chars test t.
Proof.
  induction s as [|c s IH]; [done|].
  rewrite string_app_cons. simpl. by rewrite IH, andb_assoc.
Qed.

Lemma all_chars_impl (test test' : ascii → bool) (s : string) :
  (∀ c, test c = true → test' c = true) →
  all_chars test s = true → all_chars test' s = true.
Proof.
  intros Himpl. induction s as [|c s IH]; [done|]. simpl.
  intros [? ?]%andb_true_iff. rewrite Himpl, IH; done.
Qed.

(** ** [endswith] *)

Lemma endswith_app (s suffix : string) : endswith (s +:+ suffix) suffix = true.
Proof.
  induction s as [|c s IH].
  - change ("" +:+ suffix) with suffix.
    destruct suffix; cbn [endswith]; by rewrite String.eqb_refl.
  - rewrite string_app_cons. cbn [endswith]. rewrite IH. apply orb_true_r.
Qed.

(** ** [replace(".png", "")] *)

Lemma remove_png_cons (c : ascii) (s : string) :
  not_dot c = true → remove_png (String c s) = String c (remove_png s).
Proof.
  unfold not_dot. intros Hc%negb_true_iff.
  destruct s as [|c2 [|c3 [|c4 rest]]]; simpl; by rewrite ?Hc.
Qed.

Lemma remove_png_suffix (s : string) :
  all_chars not_dot s = true → remove_png (s +:+ ".png") = s.
Proof.
  induction s as [|c s IH]; [done|]. cbn [all_chars].
  intros [Hc Hs]%andb_true_iff. rewrite string_app_cons, remove_png_cons by done.
  by rewrite IH.
Qed.

(** ** [split("_")] *)

Lemma split_underscore_whole (s : string) :
  all_chars not_underscore s = true → split_underscore s = [s].
Proof.
  induction s as [|c s IH]; [done|]. cbn [all_chars split_underscore].
  intros [Hc Hs]%andb_true_iff. unfold not_underscore in Hc.
  apply negb_true_iff in Hc. by rewrite Hc, IH.
Qed.

Lemma split_underscore_app (s t : string) :
  all_chars not_underscore s = true →
  split_underscore (s +:+ "_" +:+ t) = s :: split_underscore t.
Proof.
  induction s as [|c s IH]; [done|]. cbn [all_chars].
  intros [Hc Hs]%andb_true_iff. unfold not_underscore in Hc.
  apply negb_true_iff in Hc. rewrite string_app_cons. cbn [split_underscore].
  by rewrite Hc, IH.
Qed.

(** ** [strip] *)

Lemma all_chars_rev_app test (s t : string) :
  all_chars test (String.rev_app s t) = all_chars test s && all_chars test t.
Proof.
  revert t. induction s as [|c s IH]; intros t; [done|]. simpl.
  rewrite IH. simpl. by rewrite !andb_assoc, (andb_comm (all_chars test s)).
Qed.

Lemma rev_app_rev_app (s t u : string) :
  String.rev_app (String.rev_app s t) u = String.rev_app t (s +:+ u).
Proof.
  revert t u. induction s as [|c s IH]; intros t u; [done|]. simpl.
  by rewrite IH.
Qed.

Lemma lstrip_none (s : string) : all_chars not_space s = true → lstrip s = s.
Proof.
  destruct s as [|c s]; [done|]. simpl. unfold not_space.
  by intros [->%negb_true_iff _]%andb_true_iff.
Qed.

Lemma strip_none (s : string) : all_chars not_space s = true → strip s = s.
Proof.
  intros Hs. unfold strip, String.rev. rewrite (lstrip_none s) by done.
  rewrite lstrip_none by (by rewrite all_chars_rev_app, Hs).
  by rewrite rev_app_rev_app, string_app_nil_r.
Qed.

(** ** [str] of an integer, and [int] of it *)

Lemma pretty_N_char_digit (d : N) :
  (d < 10)%N →
  is_digit (pretty_N_char d) = true ∧
  digit_value (pretty_N_char d) = Z.of_N d.
Proof.
  intros Hd.
  assert (d = 0 ∨ d = 1 ∨ d = 2 ∨ d = 3 ∨ d = 4 ∨ d = 5 ∨ d = 6 ∨ d = 7 ∨
          d = 8 ∨ d = 9)%N as Hcases by lia.
  repeat destruct Hcases as [->|Hcases]; [done..|by subst].
Qed.

Lemma pretty_N_go_digits (x : N) (s : string) :
  all_chars is_digit s = true → all_chars is_digit (pretty_N_go x s) = true.
Proof.
  revert s. induction (N.lt_wf_0 x) as [x _ IH]; intros s Hs.
  destruct (decide (x = 0)%N) as [->|Hx]; [done|].
  rewrite pretty_N_go_step by lia. apply IH; [apply N.div_lt; lia|].
  cbn [all_chars]. rewrite Hs.
  by destruct (pretty_N_char_digit (x `mod` 10)) as [-> _];
    [apply N.mod_lt|].
Qed.

Lemma pretty_N_go_length (x : N) (s : string) :
  (String.length s ≤ String.length (pretty_N_go x s))%nat.
Proof.
  revert s. induction (N.lt_wf_0 x) as [x _ IH]; intros s.
  destruct (decide (x = 0)%N) as [->|Hx]; [done|].
  rewrite pretty_N_go_step by lia.
  etrans; [|apply IH, N.div_lt; lia]. simpl. lia.
Qed.

Lemma pretty_N_go_nonempty (x : N) : (0 < x)%N → pretty_N_go x "" ≠ "".
Proof.
  intros Hx Hempty. rewrite pretty_N_go_step in Hempty by done.
  pose proof (pretty_N_go_length (x `div` 10)
                (String (pretty_N_char (x `mod` 10)) "")) as Hlen.
  rewrite Hempty in Hlen. simpl in Hlen. lia.
Qed.

Lemma pretty_N_go_value (x : N) (s : string) :
  digits_value 0 (pretty_N_go x s) = digits_value (Z.of_N x) s.
Proof.
  revert s. induction (N.lt_wf_0 x) as [x _ IH]; intros s.
  destruct (decide (x = 0)%N) as [->|Hx]; [done|].
  rewrite pretty_N_go_step by lia. rewrite IH by (apply N.div_lt; lia).
  cbn [digits_value].
  destruct (pretty_N_char_digit (x `mod` 10)) as [-> ->]; [by apply N.mod_lt|].
  f_equal. rewrite N2Z.inj_div, N2Z.inj_mod. simpl Z.of_N.
  pose proof (Z.div_mod (Z.of_N x) 10). lia.
Qed.

(** The digits [str] writes for a positive number. *)
Lemma pretty_pos (p : positive) : pretty (Z.pos p) = pretty_N_go (N.pos p) "".
Proof. reflexivity. Qed.

Lemma pretty_neg (p : positive) :
  pretty (Z.neg p) = "-" +:+ pretty_N_go (N.pos p) "".
Proof. reflexivity. Qed.

Lemma unsigned_value_pos (p : positive) :
  unsigned_value (pretty_N_go (N.pos p) "") = Some (Z.pos p).
Proof.
  pose proof (pretty_N_go_nonempty (N.pos p) ltac:(lia)) as Hne.
  pose proof (pretty_N_go_value (N.pos p) "") as Hval.
  pose proof (pretty_N_go_digits (N.pos p) "" eq_refl) as Hdig.
  destruct (pretty_N_go (N.pos p) "") as [|c rest]; [done|].
  cbn [all_chars] in Hdig. apply andb_true_iff in Hdig as [Hc _].
  cbn [digits_value] in Hval. rewrite Hc in Hval.
  unfold unsigned_value. rewrite Hc.
  by replace (10 * 0 + digit_value c) with (digit_value c) in Hval by lia.
Qed.

Lemma is_digit_int_char (c : ascii) : is_digit c = true → is_int_char c = true.
Proof. unfold is_int_char. by intros ->. Qed.

Lemma int_char_not_space (c : ascii) : is_int_char c = true → not_space c = true.
Proof.
  unfold is_int_char, not_space, is_digit, is_space.
  intros [H| ->%Ascii.eqb_eq]%orb_true_iff; [|done].
  apply andb_true_iff in H as [H1%N.leb_le H2%N.leb_le].
  apply negb_true_iff, orb_false_iff.
  split; [apply andb_false_iff; right; apply N.leb_gt|apply N.eqb_neq]; lia.
Qed.

Lemma int_char_ascii (c : ascii) : is_int_char c = true → is_ascii_char c = true.
Proof.
  unfold is_int_char, is_ascii_char, is_digit.
  intros [H| ->%Ascii.eqb_eq]%orb_true_iff; [|done].
  apply andb_true_iff in H as [H1%N.leb_le H2%N.leb_le].
  apply N.ltb_lt. lia.
Qed.

Lemma int_char_not_dot (c : ascii) : is_int_char c = true → not_dot c = true.
Proof.
  unfold is_int_char, not_dot, is_digit.
  intros [H| ->%Ascii.eqb_eq]%orb_true_iff; [|done].
  apply andb_true_iff in H as [H1%N.leb_le H2%N.leb_le].
  apply negb_true_iff, Ascii.eqb_neq. intros ->. simpl in *. lia.
Qed.

Lemma int_char_not_underscore (c : ascii) :
  is_int_char c = true → not_underscore c = true.
Proof.
  unfold is_int_char, not_underscore, is_digit.
  intros [H| ->%Ascii.eqb_eq]%orb_true_iff; [|done].
  apply andb_true_iff in H as [H1%N.leb_le H2%N.leb_le].
  apply negb_true_iff, Ascii.eqb_neq. intros ->. simpl in *. lia.
Qed.

(** [str(z)] is digits, after a minus sign when [z] is negative. *)
Lemma pretty_int_chars (z : Z) : all_chars is_int_char (pretty z) = true.
Proof.
  destruct z as [|p|p]; [done|..].
  - rewrite pretty_pos. apply (all_chars_impl is_digit); [apply is_digit_int_char|].
    by apply pretty_N_go_digits.
  - rewrite pretty_neg, all_chars_app. apply andb_true_iff. split; [done|].
    apply (all_chars_impl is_digit); [apply is_digit_int_char|].
    by apply pretty_N_go_digits.
Qed.

(** [int(str(z)) = z] *)
Lemma ascii_int_pretty (z : Z) : ascii_int (pretty z) = Some z.
Proof.
  unfold ascii_int. rewrite strip_none
    by (apply (all_chars_impl is_int_char);
        [apply int_char_not_space|apply pretty_int_chars]).
  destruct z as [|p|p]; [done|..].
  - rewrite pretty_pos.
    pose proof (unsigned_value_pos p) as Hval.
    pose proof (pretty_N_go_digits (N.pos p) "" eq_refl) as Hdig.
    destruct (pretty_N_go (N.pos p) "") as [|c rest]; [done|].
    cbn [all_chars] in Hdig. apply andb_true_iff in Hdig as [Hc _].
    assert (Ascii.eqb c "-"%char = false ∧ Ascii.eqb c "+"%char = false)
      as [-> ->]; [|done].
    unfold is_digit in Hc. apply andb_true_iff in Hc as [H1%N.leb_le H2%N.leb_le].
    split; apply Ascii.eqb_neq; intros ->; simpl in *; lia.
  - rewrite pretty_neg. change ("-" +:+ ?s) with (String "-"%char s).
    cbn match. rewrite Ascii.eqb_refl. by rewrite unsigned_value_pos.
Qed.

(** On ASCII text [int] does not consult the table. *)
Lemma py_int_ascii `{!UnicodeInt} (s : string) :
  is_ascii s = true → py_int s = ascii_int s.
Proof. unfold py_int. by intros ->. Qed.

Lemma py_int_pretty `{!UnicodeInt} (z : Z) : py_int (pretty z) = Some z.
Proof.
  rewrite py_int_ascii; [apply ascii_int_pretty|].
  apply (all_chars_impl is_int_char); [apply int_char_ascii|].
  apply pretty_int_chars.
Qed.

End StringFacts.

(** * From the walk to the mosaic *)

Module RunFacts.
Import Osm20 Run StringFacts AsmFacts.

Section Interpreter.
Context `{!UnicodeInt}.

Lemma screenshot_name_round_trip (x y : Z) :
  endswith (screenshot_name x y) ".png" = true ∧
  parse_position (screenshot_name x y) = Returned (x, y).
Proof.
  assert (screenshot_name x y =
          ("screenshot" +:+ "_" +:+ pretty x +:+ "_" +:+ pretty y) +:+ ".png")
    as -> by (by rewrite !string_app_assoc).
  split; [apply endswith_app|].
  pose proof (pretty_int_chars x) as Hx. pose proof (pretty_int_chars y) as Hy.
  unfold parse_position. rewrite remove_png_suffix.
  - rewrite split_underscore_app by done.
    rewrite split_underscore_app
      by (by apply (all_chars_impl is_int_char), Hx; apply int_char_not_underscore).
    rewrite split_underscore_whole
      by (by apply (all_chars_impl is_int_char), Hy; apply int_char_not_underscore).
    cbn [lookup list_lookup]. by rewrite !py_int_pretty.
  - rewrite !all_chars_app.
    rewrite (all_chars_impl is_int_char not_dot _ int_char_not_dot Hx).
    by rewrite (all_chars_impl is_int_char not_dot _ int_char_not_dot Hy).
Qed.

Lemma screenshot_name_inj (x y x' y' : Z) :
  screenshot_name x y = screenshot_name x' y' → x = x' ∧ y = y'.
Proof.
  intros Heq.
  destruct (screenshot_name_round_trip x y) as [_ Hp].
  destruct (screenshot_name_round_trip x' y') as [_ Hp'].
  rewrite Heq, Hp' in Hp. by injection Hp as -> ->.
Qed.

(** X1.  The name [fetch_map] gives the screenshot at (x, y) ends in
    [.png] and is parsed by the assembler back to (x, y), for all
    integers [x] and [y]; so two positions never share a name. *)
Theorem screenshot_name_parses (x y : Z) :
  endswith (screenshot_name x y) ".png" = true ∧
  parse_position (screenshot_name x y) = Returned (x, y) ∧
  ∀ x' y', screenshot_name x y = screenshot_name x' y' → (x, y) = (x', y').
Proof.
  destruct (screenshot_name_round_trip x y) as [Hpng Hparse].
  split; [done|]. split; [done|].
  intros x' y' [-> ->]%screenshot_name_inj. done.
Qed.

(** ** What the observations of the assembler's events add up to *)

Lemma pastes_app ev ev' : pastes (ev ++ ev') = pastes ev ++ pastes ev'.
Proof. induction ev as [|e ev IH]; [done|]. destruct e; simpl; by rewrite IH. Qed.

Lemma canvases_app ev ev' : canvases (ev ++ ev') = canvases ev ++ canvases ev'.
Proof. induction ev as [|e ev IH]; [done|]. destruct e; simpl; by rewrite IH. Qed.

Lemma saved_app ev ev' : saved (ev ++ ev') = saved ev ++ saved ev'.
Proof. induction ev as [|e ev IH]; [done|]. destruct e; simpl; by rewrite IH. Qed.

Lemma printed_app ev ev' : printed (ev ++ ev') = printed ev ++ printed ev'.
Proof. induction ev as [|e ev IH]; [done|]. destruct e; simpl; by rewrite IH. Qed.

Section PasteTiles.

Variable image_size : string → Z * Z.
Variable center : Z * Z.
Variable movement_pixels : Z.

Local Abbreviation paste_all tiles :=
  (tiles ≫= paste_tile image_size center movement_pixels).

Lemma paste_all_cons t tiles :
  paste_all (t :: tiles) =
  [OpenImage t.1;
   Paste t.1 (paste_offset center movement_pixels t.2 (image_size t.1))
     (image_size t.1)] ++ paste_all tiles.
Proof. rewrite bind_cons. by destruct t. Qed.

Lemma paste_all_pastes tiles :
  pastes (paste_all tiles) =
  (λ t, (t.1, paste_offset center movement_pixels t.2 (image_size t.1),
         image_size t.1)) <$> tiles.
Proof.
  induction tiles as [|t tiles IH]; [done|].
  rewrite paste_all_cons, pastes_app, IH. done.
Qed.

Lemma paste_all_canvases tiles : canvases (paste_all tiles) = [].
Proof.
  induction tiles as [|t tiles IH]; [done|].
  by rewrite paste_all_cons, canvases_app, IH.
Qed.

Lemma paste_all_saved tiles : saved (paste_all tiles) = [].
Proof.
  induction tiles as [|t tiles IH]; [done|].
  by rewrite paste_all_cons, saved_app, IH.
Qed.

Lemma paste_all_printed tiles : printed (paste_all tiles) = [].
Proof.
  induction tiles as [|t tiles IH]; [done|].
  by rewrite paste_all_cons, printed_app, IH.
Qed.

End PasteTiles.

(** ** The sort of the listing *)

Lemma insert_sorted_perm (a : string) (l : list string) :
  insert_sorted a l ≡ₚ a :: l.
Proof.
  induction l as [|b l IH]; [done|]. simpl.
  destruct (String.leb a b); [done|]. rewrite IH. apply Permutation_swap.
Qed.

Lemma sorted_perm (l : list string) : sorted l ≡ₚ l.
Proof.
  unfold sorted. induction l as [|a l IH]; [done|]. simpl.
  by rewrite insert_sorted_perm, IH.
Qed.

(** ** A listing whose names all parse *)

Lemma collect_parsed dir files found out :
  Forall parses files →
  ∃ tiles, collect dir files found out = (out, Returned (found ++ tiles)) ∧
           Forall2 (tile_of dir) files tiles.
Proof.
  intros Hall. revert found out.
  induction Hall as [|name files [Hpng (pos & Hpos)] _ IH]; intros found out.
  { exists []. by rewrite app_nil_r. }
  cbn [collect]. rewrite Hpng, Hpos.
  destruct (IH (found ++ [(path_join dir name, pos)]) out) as (tiles & -> & Htiles).
  exists ((path_join dir name, pos) :: tiles). rewrite <- app_assoc.
  split; [done|]. by constructor.
Qed.

Lemma tile_of_paths dir files tiles :
  Forall2 (tile_of dir) files tiles → tiles.*1 = path_join dir <$> files.
Proof.
  induction 1 as [|name t files tiles [Hpath _] _ IH]; [done|].
  by rewrite !fmap_cons, Hpath, IH.
Qed.

Lemma assemble_all_parsed listdir image_size dir base p size zoom steps :
  listdir ≠ [] → Forall parses listdir →
  0 < (canvas_size p size steps).1 → 0 < (canvas_size p size steps).2 →
  ∃ tiles,
    Forall2 (tile_of dir) (sorted listdir) tiles ∧
    assemble_image_details listdir image_size dir base p size zoom steps =
      ([NewImage (canvas_size p size steps)] ++
       (tiles ≫= paste_tile image_size
                   (canvas_center (canvas_size p size steps)) p) ++
       [Save (output_name base steps zoom (canvas_size p size steps))],
       Returned ()).
Proof.
  intros Hne Hall Hw Hh.
  assert (Forall parses (sorted listdir)) as Hsorted.
  { rewrite Forall_forall in Hall. apply Forall_forall.
    intros name Hin. rewrite sorted_elem in Hin. by apply Hall. }
  destruct (collect_parsed dir (sorted listdir) [] [] Hsorted)
    as (tiles & Hc & Htiles).
  exists tiles. split; [done|]. unfold assemble_image_details. rewrite Hc.
  destruct (usable_size _ Hw Hh) as [-> ->].
  destruct tiles as [|t tiles]; [|done].
  apply Forall2_length in Htiles. rewrite (Permutation_length (sorted_perm _)) in Htiles.
  by destruct listdir.
Qed.

(** ** What a walk leaves in the directories *)

Lemma cropped_listing_elem tr name :
  name ∈ cropped_listing tr ↔
  ∃ pos, pos ∈ captured_positions tr ∧ name = screenshot_name pos.1 pos.2.
Proof.
  unfold cropped_listing. rewrite list_elem_of_fmap.
  split; intros (pos & ? & ?); by exists pos.
Qed.

Lemma cropped_listing_parses tr : Forall parses (cropped_listing tr).
Proof.
  apply Forall_forall. intros name (pos & _ & ->)%cropped_listing_elem.
  destruct (screenshot_name_round_trip pos.1 pos.2) as [Hpng Hparse].
  split; [done|by eexists].
Qed.

Lemma tiles_of_captures dir files tiles (ps : list GridPosition) :
  Forall2 (tile_of dir) files tiles →
  (∀ name, name ∈ files →
           ∃ pos, pos ∈ ps ∧ name = screenshot_name pos.1 pos.2) →
  ∀ t, t ∈ tiles → t.2 ∈ ps.
Proof.
  induction 1 as [|name t files tiles [_ Hparse] _ IH]; intros Hfiles t' Hin.
  { by apply elem_of_nil in Hin. }
  apply elem_of_cons in Hin as [->|Hin].
  - destruct (Hfiles name) as ([x y] & Hpos & ->); [by left|].
    destruct (screenshot_name_round_trip x y) as [_ Hp]. simpl in Hparse.
    rewrite Hp in Hparse. injection Hparse as Heq. by rewrite <- Heq.
  - apply IH; [|done]. intros n Hn. apply Hfiles. by right.
Qed.

(** ** [cleanup] *)

Lemma filter_not_png_nil (l : list string) :
  Forall (λ name, endswith name ".png" = true) l → filter not_png l = [].
Proof.
  induction 1 as [|name l Hpng _ IH]; [done|].
  rewrite filter_cons_False; [done|]. unfold not_png. by rewrite Hpng.
Qed.

Lemma filter_not_png_elem (l : list string) (name : string) :
  name ∈ filter not_png l ↔ name ∈ l ∧ endswith name ".png" = false.
Proof. rewrite list_elem_of_filter. unfold not_png. tauto. Qed.

(** ** The walk: how many positions, and where *)

Section Captures.

Variable driver : Driver.
Variable dark : Dark.
Variable movement_pixels : Z.
Variable pan_wait_seconds : Z.

Local Abbreviation the_run N :=
  (fetch_map_run driver dark movement_pixels pan_wait_seconds N).

Lemma captured_in_square N p :
  0 ≤ N → p ∈ captured_positions (trace (the_run N)) ↔ 1 ≤ N ∧ in_square N p.
Proof.
  intros HN.
  destruct (NavFacts.fetch_map_run_consistent driver dark movement_pixels
              pan_wait_seconds N) as (_ & Hseen & _).
  rewrite <- Hseen. by apply NavFacts.fetch_map_run_seen.
Qed.

Lemma captured_count N :
  1 ≤ N →
  Z.of_nat (length (captured_positions (trace (the_run N)))) = (N + 1) * (N + 1).
Proof.
  intros HN.
  destruct (NavFacts.fetch_map_run_consistent driver dark movement_pixels
              pan_wait_seconds N) as (Hnd & _).
  rewrite (Permutation_length (l' := square_cells N)).
  - apply NavFacts.square_cells_length. lia.
  - apply NoDup_Permutation; [done|apply NavFacts.square_cells_NoDup|].
    intros p. rewrite captured_in_square, NavFacts.square_cells_elem by lia.
    split; [by intros [_ ?]|by split].
Qed.

Lemma fetch_map_no_ring N :
  N ≤ 0 →
  fetch_map driver dark movement_pixels pan_wait_seconds N =
    Raised UnboundLocalError ∧
  trace (the_run N) = [].
Proof.
  intros HN. unfold fetch_map, Osm20.fetch_map_run.
  by rewrite NavFacts.centering_nonpos, NavFacts.walk_rings_nonpos.
Qed.

End Captures.

(** ** The workflow of [main] *)

Section Workflow.

Variable driver : Driver.
Variable dark : Dark.
Variables movement_pixels pan_wait_seconds steps zoom_level : Z.
Variables title now_text base_dir cropped_dir : string.

Local Abbreviation the_workflow :=
  (workflow driver dark movement_pixels pan_wait_seconds steps zoom_level
     title now_text base_dir cropped_dir).
Local Abbreviation the_listing :=
  (cropped_listing
     (trace (fetch_map_run driver dark movement_pixels pan_wait_seconds steps))).
Local Abbreviation the_captures :=
  (captured_positions
     (trace (fetch_map_run driver dark movement_pixels pan_wait_seconds steps))).
Local Abbreviation tile_size := (crop_image driver dark).
Local Abbreviation the_canvas :=
  (canvas_size movement_pixels tile_size steps).
Local Abbreviation output_base :=
  (path_join base_dir ("map_" +:+ replace_spaces title +:+ "_" +:+ now_text)).

(** With one ring at least the three steps run through: the events of the
    assembler are one canvas, the pastes of the tiles and one save, and the
    cleanup removes both directories. *)
Lemma workflow_events :
  1 ≤ steps → 0 < the_canvas.1 → 0 < the_canvas.2 →
  ∃ tiles,
    Forall2 (tile_of cropped_dir) (sorted the_listing) tiles ∧
    the_workflow =
      Returned
        ([NewImage the_canvas] ++
         (tiles ≫= paste_tile (λ _, tile_size) (canvas_center the_canvas)
                     movement_pixels) ++
         [Save (output_name output_base steps zoom_level the_canvas)],
         mkCleaned None None false).
Proof.
  intros Hsteps Hw Hh. unfold workflow.
  rewrite NavFacts.fetch_map_returns by done. unfold assemble_big_map.
  assert (the_listing ≠ []) as Hne.
  { intros Hnil. pose proof (captured_count driver dark movement_pixels
                               pan_wait_seconds steps Hsteps) as Hlen.
    unfold cropped_listing in Hnil. apply fmap_nil_inv in Hnil.
    rewrite Hnil in Hlen. simpl in Hlen. nia. }
  destruct (assemble_all_parsed the_listing (λ _, tile_size) cropped_dir
              output_base movement_pixels tile_size zoom_level steps Hne
              (cropped_listing_parses _) Hw Hh) as (tiles & Htiles & ->).
  exists tiles. split; [done|]. unfold cleanup.
  assert (filter not_png the_listing = []) as ->; [|done].
  apply filter_not_png_nil. eapply Forall_impl; [apply cropped_listing_parses|].
  by intros name [? _].
Qed.

(** When the canvas computed has a negative side, [Image.new] ends the
    workflow after the walk. *)
Lemma workflow_refused :
  1 ≤ steps → the_canvas.1 < 0 ∨ the_canvas.2 < 0 →
  the_workflow = Raised ValueError.
Proof.
  intros Hsteps Hneg%refused_size_iff. unfold workflow.
  rewrite NavFacts.fetch_map_returns by done.
  unfold assemble_big_map, assemble_image_details.
  assert (Forall parses (sorted the_listing)) as Hsorted.
  { apply Forall_forall. intros name Hin. rewrite sorted_elem in Hin.
    revert name Hin. apply Forall_forall, cropped_listing_parses. }
  destruct (collect_parsed cropped_dir (sorted the_listing) [] [] Hsorted)
    as (tiles & -> & Htiles).
  destruct tiles as [|t tiles]; [|by rewrite Hneg].
  apply Forall2_length in Htiles.
  rewrite (Permutation_length (sorted_perm _)) in Htiles.
  unfold cropped_listing in Htiles. rewrite length_fmap in Htiles.
  pose proof (captured_count driver dark movement_pixels pan_wait_seconds
                steps Hsteps) as Hlen.
  unfold GridPosition in *. rewrite Htiles in Hlen. simpl in Hlen. nia.
Qed.




End Workflow.

End Interpreter.

End RunFacts.

(** * The assembler on any directory *)

Module DirectoryFacts.
Import Osm20 Run StringFacts AsmFacts RunFacts.

Section Interpreter.
Context `{!UnicodeInt}.

(** ** [sorted] sorts *)

Lemma insert_sorted_hd (a b : string) (l : list string) :
  String.le b a → HdRel String.le b l → HdRel String.le b (insert_sorted a l).
Proof.
  intros Hba Hl. destruct l as [|c l]; simpl; [by constructor|].
  destruct (String.leb a c); constructor; [done|]. by inversion Hl.
Qed.

Lemma insert_sorted_Sorted (a : string) (l : list string) :
  Sorted String.le l → Sorted String.le (insert_sorted a l).
Proof.
  induction 1 as [|b l Hl IH Hb]; simpl; [by repeat constructor|].
  destruct (String.leb a b) eqn:Hab.
  - constructor; [by constructor|]. constructor. unfold String.le. by rewrite Hab.
  - constructor; [done|]. apply insert_sorted_hd; [|done].
    destruct (String.le_total a b) as [Hle|Hle]; [|done].
    unfold String.le in Hle. by rewrite Hab in Hle.
Qed.

Lemma sorted_Sorted (l : list string) : Sorted String.le (sorted l).
Proof.
  unfold sorted. induction l as [|a l IH]; [constructor|].
  simpl. by apply insert_sorted_Sorted.
Qed.

Lemma sorted_unique (l l' : list string) : l ≡ₚ l' → sorted l = sorted l'.
Proof.
  intros Hperm. apply (Sorted_unique String.le); [apply sorted_Sorted..|].
  by rewrite !sorted_perm.
Qed.

Lemma StronglySorted_sublist {A} (R : relation A) (k l : list A) :
  k `sublist_of` l → StronglySorted R l → StronglySorted R k.
Proof.
  induction 1 as [|x k l Hsub IH|x k l Hsub IH]; intros Hl; [done|..].
  - apply StronglySorted_inv in Hl as [Hl Hx]. constructor; [by apply IH|].
    rewrite Forall_forall in Hx. apply Forall_forall. intros y Hy.
    apply Hx. by eapply sublist_subseteq.
  - apply StronglySorted_inv in Hl as [Hl _]. by apply IH.
Qed.

(** ** The parse *)

Lemma parse_position_outcome (name : string) :
  parse_position name = Raised IndexError ∨
  parse_position name = Raised ValueError ∨
  ∃ pos, parse_position name = Returned pos.
Proof.
  destruct (parse_position name) as [pos|e] eqn:Hp; [right; right; by eexists|].
  destruct (parse_position_raises _ _ Hp) as [-> | ->]; auto.
Qed.


(** ** The collecting loop on any listing *)

Lemma collect_raises dir files found out :
  Exists aborts files → (collect dir files found out).2 = Raised IndexError.
Proof.
  intros Hex. revert found out.
  induction Hex as [name files [Hpng Hparse]|name files Hex IH];
    intros found out; cbn [collect].
  { by rewrite Hpng, Hparse. }
  destruct (endswith name ".png"); [|apply IH].
  destruct (parse_position_outcome name) as [-> |[-> |[pos ->]]];
    [done|apply IH..].
Qed.

Lemma filter_bool_cons {A} (f : A → bool) (x : A) (l : list A) :
  filter (λ a, f a) (x :: l) =
  if f x then x :: filter (λ a, f a) l else filter (λ a, f a) l.
Proof.
  destruct (f x) eqn:Hx.
  - rewrite filter_cons_True; [done|]. rewrite Hx. exact I.
  - rewrite filter_cons_False; [done|]. rewrite Hx. simpl. tauto.
Qed.

Lemma collect_filtered dir files found out :
  ¬ Exists aborts files →
  ∃ tiles,
    collect dir files found out =
      (out ++ (Print ∘ skip_message <$> filter (λ name, is_skipped name) files),
       Returned (found ++ tiles)) ∧
    Forall2 (tile_of dir) (filter (λ name, is_tile name) files) tiles.
Proof.
  revert found out. induction files as [|name files IH]; intros found out Hno.
  { exists []. by rewrite !app_nil_r. }
  assert (¬ Exists aborts files) as Hrest by (intros ?; apply Hno; by right).
  assert (¬ aborts name) as Hname by (intros ?; apply Hno; by left).
  cbn [collect]. rewrite !filter_bool_cons. unfold is_tile at 1, is_skipped at 1.
  destruct (endswith name ".png") eqn:Hpng; [|by apply IH].
  destruct (parse_position_outcome name) as [Hp|[Hp|[pos Hp]]]; rewrite Hp.
  - by destruct Hname.
  - destruct (IH found (out ++ [Print (skip_message name)]) Hrest)
      as (tiles & -> & Htiles).
    exists tiles. simpl. by rewrite <- app_assoc.
  - destruct (IH (found ++ [(path_join dir name, pos)]) out Hrest)
      as (tiles & -> & Htiles).
    exists ((path_join dir name, pos) :: tiles). simpl. rewrite <- app_assoc.
    split; [done|]. by constructor.
Qed.

Lemma prints_only (events : list AsmEvent) :
  (∀ e, e ∈ events → ∃ message, e = Print message) →
  canvases events = [] ∧ pastes events = [] ∧ saved events = [].
Proof.
  induction events as [|e events IH]; intros Hall; [done|].
  destruct (Hall e) as [m ->]; [by left|]. simpl. apply IH.
  intros e' He'. apply Hall. by right.
Qed.

Lemma printed_prints (names : list string) :
  printed (Print ∘ skip_message <$> names) = skip_message <$> names.
Proof.
  induction names as [|n names IH]; [done|]. rewrite !fmap_cons.
  change ((Print ∘ skip_message) n) with (Print (skip_message n)).
  cbn [printed]. by rewrite IH.
Qed.

Lemma aborts_sorted (listdir : list string) :
  Exists aborts (sorted listdir) ↔ Exists aborts listdir.
Proof. rewrite !Exists_exists. by setoid_rewrite sorted_elem. Qed.

Lemma aborts_or_not (files : list string) :
  Exists aborts files ∨ ¬ Exists aborts files.
Proof.
  induction files as [|name files [IH|IH]].
  - right. by intros ?%Exists_nil.
  - left. by right.
  - unfold aborts at 1.
    destruct (endswith name ".png") eqn:Hpng;
      [destruct (parse_position_outcome name) as [Hp|[Hp|[pos Hp]]]|].
    + left. by left.
    + right. intros [[_ Hq]|?]%Exists_cons; [congruence|done].
    + right. intros [[_ Hq]|?]%Exists_cons; [congruence|done].
    + right. intros [[Hq _]|?]%Exists_cons; [congruence|done].
Qed.

Lemma is_tile_parses (name : string) :
  is_tile name = true ↔ parses name.
Proof.
  unfold is_tile, parses. rewrite andb_true_iff.
  destruct (parse_position name) as [pos|e].
  - split; intros [? _]; (split; [done|]); [by eexists|done].
  - split; [by intros [_ ?]|by intros [_ [pos ?]]].
Qed.

Lemma tile_names_nil (files : list string) :
  filter (λ name, is_tile name) files = [] ↔ ¬ Exists parses files.
Proof.
  split.
  - intros Hnil (name & Hin & Hp)%Exists_exists.
    eapply (filter_nil_not_elem_of _ _ name Hnil); [|done].
    by apply Is_true_true, is_tile_parses.
  - intros Hnone. destruct (filter _ files) as [|name names] eqn:Hnames; [done|].
    destruct Hnone. apply Exists_exists. exists name.
    assert (name ∈ filter (λ name, is_tile name) files) as Hin
      by (rewrite Hnames; left).
    apply list_elem_of_filter in Hin as [Htile%Is_true_true Hin].
    split; [done|]. by apply is_tile_parses.
Qed.

Lemma parses_sorted (listdir : list string) :
  Exists parses (sorted listdir) ↔ Exists parses listdir.
Proof. rewrite !Exists_exists. by setoid_rewrite sorted_elem. Qed.

Section AnyDirectory.

Variable listdir : list string.
Variable image_size : string → Z * Z.
Variables cropped_dir output_base_filename : string.
Variable movement_pixels : Z.
Variable cropped_image_size : Z * Z.
Variables zoom_level steps : Z.

Local Abbreviation run :=
  (assemble_image_details listdir image_size cropped_dir output_base_filename
     movement_pixels cropped_image_size zoom_level steps).
Local Abbreviation the_canvas :=
  (canvas_size movement_pixels cropped_image_size steps).
Local Abbreviation tile_names := (filter (λ name, is_tile name) (sorted listdir)).
Local Abbreviation skipped := (filter (λ name, is_skipped name) (sorted listdir)).
Local Abbreviation warnings := (Print ∘ skip_message <$> skipped).
Local Abbreviation pasted tiles :=
  (tiles ≫= paste_tile image_size (canvas_center the_canvas) movement_pixels).

(** The events of a run that is not aborted by a name: the warnings, then
    the message that there is nothing to assemble, or what becomes of the
    canvas. *)
Lemma assemble_filtered :
  ¬ Exists aborts listdir →
  ∃ tiles,
    Forall2 (tile_of cropped_dir) tile_names tiles ∧
    run =
      match tiles with
      | [] => (warnings ++ [Print no_images_message], Returned ())
      | _ =>
          if refused_size the_canvas then (warnings, Raised ValueError)
          else if empty_size the_canvas then
            (warnings ++ [NewImage the_canvas] ++ pasted tiles,
             Raised SystemError)
          else
            (warnings ++ [NewImage the_canvas] ++ pasted tiles ++
             [Save (output_name output_base_filename steps zoom_level
                      the_canvas)],
             Returned ())
      end.
Proof.
  intros Hno. rewrite <- aborts_sorted in Hno.
  destruct (collect_filtered cropped_dir (sorted listdir) [] [] Hno)
    as (tiles & Hc & Htiles).
  exists tiles. split; [done|]. unfold assemble_image_details. rewrite Hc.
  by destruct tiles.
Qed.

Lemma warnings_observed :
  printed warnings = skip_message <$> skipped ∧
  canvases warnings = [] ∧ pastes warnings = [] ∧ saved warnings = [].
Proof.
  split; [apply printed_prints|]. apply prints_only.
  intros e (n & -> & _)%list_elem_of_fmap. by eexists.
Qed.

(** What a run with a tile and a canvas of positive sides is seen to do. *)
Lemma assemble_on_canvas :
  ¬ Exists aborts listdir → tile_names ≠ [] →
  0 < the_canvas.1 → 0 < the_canvas.2 →
  ∃ tiles,
    Forall2 (tile_of cropped_dir) tile_names tiles ∧
    run.2 = Returned () ∧
    printed run.1 = skip_message <$> skipped ∧
    canvases run.1 = [the_canvas] ∧
    pastes run.1 =
      (λ t, (t.1, paste_offset (canvas_center the_canvas) movement_pixels t.2
                    (image_size t.1), image_size t.1)) <$> tiles ∧
    saved run.1 =
      [output_name output_base_filename steps zoom_level the_canvas].
Proof.
  intros Hno Hne Hw Hh. destruct (assemble_filtered Hno) as (tiles & Htiles & ->).
  exists tiles. split; [done|].
  destruct (usable_size _ Hw Hh) as [-> ->].
  destruct warnings_observed as (Hpr & Hc & Hp & Hs).
  destruct Htiles as [|name t names tiles Ht Htiles]; [done|].
  cbn [fst snd]. split; [done|].
  rewrite !printed_app, !canvases_app, !saved_app, !pastes_app.
  rewrite paste_all_printed, paste_all_canvases, paste_all_saved,
    paste_all_pastes, Hpr, Hc, Hp, Hs.
  cbn [printed canvases saved pastes app]. by rewrite !app_nil_r.
Qed.

(** What a run is seen to do when [Image.new] refuses the canvas. *)
Lemma assemble_refused :
  ¬ Exists aborts listdir → tile_names ≠ [] →
  the_canvas.1 < 0 ∨ the_canvas.2 < 0 →
  run.2 = Raised ValueError ∧
  printed run.1 = skip_message <$> skipped ∧
  canvases run.1 = [] ∧ pastes run.1 = [] ∧ saved run.1 = [].
Proof.
  intros Hno Hne Hneg%refused_size_iff.
  destruct (assemble_filtered Hno) as (tiles & Htiles & ->). rewrite Hneg.
  destruct Htiles as [|name t names tiles Ht Htiles]; [done|].
  cbn [fst snd]. split; [done|]. apply warnings_observed.
Qed.

(** What a run without a tile is seen to do. *)
Lemma assemble_nothing :
  ¬ Exists aborts listdir → tile_names = [] →
  run.2 = Returned () ∧
  printed run.1 = (skip_message <$> skipped) ++ [no_images_message] ∧
  last run.1 = Some (Print no_images_message) ∧
  canvases run.1 = [] ∧ pastes run.1 = [] ∧ saved run.1 = [].
Proof.
  intros Hno Hnil. destruct (assemble_filtered Hno) as (tiles & Htiles & ->).
  rewrite Hnil in Htiles. apply Forall2_nil_inv_l in Htiles as ->.
  destruct warnings_observed as (Hpr & Hc & Hp & Hs).
  cbn [fst snd]. rewrite printed_app, canvases_app, pastes_app, saved_app,
    Hpr, Hc, Hp, Hs, last_snoc. done.
Qed.

(** The paths pasted are those of tiles of the listing, in its order. *)
Lemma pasted_paths :
  ∃ names,
    names `sublist_of` tile_names ∧
    (λ paste, paste.1.1) <$> pastes run.1 = path_join cropped_dir <$> names.
Proof.
  destruct (aborts_or_not listdir) as [Hex|Hno].
  { exists []. split; [apply sublist_nil_l|].
    rewrite <- aborts_sorted in Hex.
    pose proof (collect_raises cropped_dir (sorted listdir) [] [] Hex) as Hc.
    destruct (collect_prints cropped_dir (sorted listdir) [] [])
      as (extra & Hout & Hextra).
    unfold assemble_image_details.
    destruct (collect cropped_dir (sorted listdir) [] []) as [out r].
    simpl in Hc, Hout. subst r out. cbn [fst].
    assert (pastes extra = []) as ->; [|done]. apply prints_only.
    intros e (n & _ & ->)%Hextra. by eexists. }
  destruct (assemble_filtered Hno) as (tiles & Htiles & ->).
  pose proof (tile_of_paths _ _ _ Htiles) as Hpaths.
  destruct warnings_observed as (_ & _ & Hp & _).
  assert ((λ paste, paste.1.1) <$>
            pastes (warnings ++ [NewImage the_canvas] ++ pasted tiles) =
          path_join cropped_dir <$> tile_names) as Hpainted.
  { rewrite !pastes_app, paste_all_pastes, Hp. cbn [pastes app].
    rewrite <- list_fmap_compose, <- Hpaths. by apply list_fmap_ext. }
  destruct tiles as [|t tiles]; [|remember (t :: tiles) as ts].
  - exists []. split; [apply sublist_nil_l|]. cbn [fst].
    by rewrite pastes_app, Hp.
  - destruct (refused_size the_canvas); [|destruct (empty_size the_canvas)];
      cbn [fst].
    + exists []. split; [apply sublist_nil_l|]. by rewrite Hp.
    + by exists tile_names.
    + exists tile_names. split; [done|]. rewrite <- Hpainted.
      rewrite !app_assoc, (pastes_app _ [Save _]). cbn [pastes].
      by rewrite app_nil_r.
Qed.

Lemma assemble_aborted_events :
  Exists aborts listdir →
  run.2 = Raised IndexError ∧
  canvases run.1 = [] ∧ pastes run.1 = [] ∧ saved run.1 = [] ∧
  Print no_images_message ∉ run.1.
Proof.
  intros Hex. rewrite <- aborts_sorted in Hex.
  pose proof (collect_raises cropped_dir (sorted listdir) [] [] Hex) as Hc.
  destruct (collect_prints cropped_dir (sorted listdir) [] [])
    as (extra & Hout & Hextra).
  unfold assemble_image_details.
  destruct (collect cropped_dir (sorted listdir) [] []) as [out r].
  simpl in Hc, Hout. subst r out. split; [done|].
  assert (canvases extra = [] ∧ pastes extra = [] ∧ saved extra = [])
    as (? & ? & ?).
  { apply prints_only. intros e (n & _ & ->)%Hextra. by eexists. }
  split_and!; [done..|]. cbn [fst]. by intros (n & _ & [=])%Hextra.
Qed.

Lemma tile_names_or_none : tile_names = [] ∨ tile_names ≠ [].
Proof. destruct tile_names; [by left|by right]. Qed.

(** X5.  The assembler ends with an IndexError exactly when some [.png]
    name of the directory makes the parse raise one; it has then printed
    warnings at most: no canvas, no paste, no save, whatever good tiles
    the directory holds.  Otherwise it returns when no name is a tile or
    both sides of the canvas computed are positive, and ends with the
    ValueError of [Image.new], nothing allocated, pasted or saved, when
    there is a tile and a side is negative; so it returns only when no
    name aborts it and there is no tile or no negative side. *)
Theorem assemble_aborts_iff :
  (run.2 = Raised IndexError ↔ Exists aborts listdir) ∧
  (Exists aborts listdir →
   canvases run.1 = [] ∧ pastes run.1 = [] ∧ saved run.1 = []) ∧
  (¬ Exists aborts listdir →
   tile_names = [] ∨ 0 < the_canvas.1 ∧ 0 < the_canvas.2 →
   run.2 = Returned ()) ∧
  (¬ Exists aborts listdir → tile_names ≠ [] →
   the_canvas.1 < 0 ∨ the_canvas.2 < 0 →
   run.2 = Raised ValueError ∧
   canvases run.1 = [] ∧ pastes run.1 = [] ∧ saved run.1 = []) ∧
  (run.2 = Returned () →
   ¬ Exists aborts listdir ∧
   (tile_names = [] ∨ 0 ≤ the_canvas.1 ∧ 0 ≤ the_canvas.2)).
Proof.
  assert (¬ Exists aborts listdir →
          tile_names = [] ∨ 0 < the_canvas.1 ∧ 0 < the_canvas.2 →
          run.2 = Returned ()) as Hok.
  { intros Hno [Hnil|[Hw Hh]]; [by apply assemble_nothing|].
    destruct tile_names_or_none as [Hnil|Hne]; [by apply assemble_nothing|].
    by destruct (assemble_on_canvas Hno Hne Hw Hh) as (tiles & _ & ? & _). }
  assert (¬ Exists aborts listdir → run.2 ≠ Raised IndexError) as Hother.
  { intros Hno. destruct (assemble_filtered Hno) as (tiles & _ & ->).
    destruct tiles; [done|].
    by destruct (refused_size the_canvas), (empty_size the_canvas). }
  split; [|split; [|split; [done|split]]].
  - split; [|by intros (? & _)%assemble_aborted_events].
    intros Hr. destruct (aborts_or_not listdir) as [?|Hno]; [done|].
    by destruct (Hother Hno).
  - by intros (_ & ? & ? & ? & _)%assemble_aborted_events.
  - intros Hno Hne Hneg.
    by destruct (assemble_refused Hno Hne Hneg) as (? & _ & ? & ? & ?).
  - intros Hr. destruct (aborts_or_not listdir) as [Hex|Hno].
    { apply assemble_aborted_events in Hex as [Hex _]. congruence. }
    split; [done|].
    destruct tile_names_or_none as [Hnil|Hne]; [by left|right].
    destruct (decide (the_canvas.1 < 0 ∨ the_canvas.2 < 0)) as [Hneg|?]; [|lia].
    destruct (assemble_refused Hno Hne Hneg) as [Hv _]. congruence.
Qed.

(** X7.  When no name aborts it, a run prints one warning for each [.png]
    name with a part that is no integer, in the order of the sorted names.
    Without a tile it then prints the nothing-to-assemble message, returns,
    and neither allocates, pastes nor saves.  With a tile and a canvas of
    positive sides it returns after allocating that one canvas, pasting
    each [.png] name that parses, in the order of the sorted names, and
    saving one file; with a tile and a negative side it ends with the
    ValueError of [Image.new] and allocates, pastes and saves nothing. *)
Theorem assemble_accounts_for_every_name :
  ¬ Exists aborts listdir →
  match tile_names with
  | [] =>
      run.2 = Returned () ∧
      printed run.1 = (skip_message <$> skipped) ++ [no_images_message] ∧
      canvases run.1 = [] ∧ pastes run.1 = [] ∧ saved run.1 = []
  | _ =>
      (0 < the_canvas.1 → 0 < the_canvas.2 →
       run.2 = Returned () ∧
       printed run.1 = skip_message <$> skipped ∧
       canvases run.1 = [the_canvas] ∧
       (λ paste, paste.1.1) <$> pastes run.1 =
         path_join cropped_dir <$> tile_names ∧
       saved run.1 =
         [output_name output_base_filename steps zoom_level the_canvas]) ∧
      (the_canvas.1 < 0 ∨ the_canvas.2 < 0 →
       run.2 = Raised ValueError ∧
       printed run.1 = skip_message <$> skipped ∧
       canvases run.1 = [] ∧ pastes run.1 = [] ∧ saved run.1 = [])
  end.
Proof.
  intros Hno. destruct tile_names_or_none as [Hnil|Hne].
  { rewrite Hnil.
    by destruct (assemble_nothing Hno Hnil) as (? & ? & _ & ? & ? & ?). }
  pose proof (assemble_refused Hno Hne) as Hrefused.
  assert (0 < the_canvas.1 → 0 < the_canvas.2 →
          run.2 = Returned () ∧
          printed run.1 = skip_message <$> skipped ∧
          canvases run.1 = [the_canvas] ∧
          (λ paste, paste.1.1) <$> pastes run.1 =
            path_join cropped_dir <$> tile_names ∧
          saved run.1 =
            [output_name output_base_filename steps zoom_level the_canvas])
    as Hpainted.
  { intros Hw Hh.
    destruct (assemble_on_canvas Hno Hne Hw Hh)
      as (tiles & Htiles & Hr & Hpr & Hc & Hp & Hs).
    split; [done|]. split; [done|]. split; [done|]. split; [|done].
    rewrite Hp, <- list_fmap_compose, <- (tile_of_paths _ _ _ Htiles).
    by apply list_fmap_ext. }
  by destruct tile_names.
Qed.

(** X8.  Tiles are pasted in ascending order of their names (by code
    point), whatever the order of the listing: the pasted paths are the
    directory joined to an ascending sublist of the sorted listing. *)
Theorem pastes_in_name_order :
  ∃ names,
    (λ paste, paste.1.1) <$> pastes run.1 = path_join cropped_dir <$> names ∧
    StronglySorted String.le names ∧
    names `sublist_of` sorted listdir ∧
    sorted listdir ≡ₚ listdir.
Proof.
  destruct pasted_paths as (names & Hsub & Hpaths).
  assert (names `sublist_of` sorted listdir) as Hsorted
    by (etrans; [done|apply sublist_filter]).
  exists names. split; [done|]. split; [|split; [done|apply sorted_perm]].
  eapply StronglySorted_sublist; [done|].
  apply Sorted_StronglySorted; [apply _|apply sorted_Sorted].
Qed.

(** C6, and the input where the code departs from it.  When no name of
    the directory is a [.png] that yields a position, no canvas is
    allocated, nothing is pasted and nothing is saved.  The assembler
    then prints, last, that there is nothing to assemble, and returns,
    unless a [.png] name has too few parts: the IndexError of that name
    ends the assembler first, and the message is never printed. *)
Theorem nothing_to_assemble :
  ¬ Exists parses listdir →
  canvases run.1 = [] ∧ pastes run.1 = [] ∧ saved run.1 = [] ∧
  (¬ Exists aborts listdir →
   run.2 = Returned () ∧ last run.1 = Some (Print no_images_message)) ∧
  (Exists aborts listdir →
   run.2 = Raised IndexError ∧ Print no_images_message ∉ run.1).
Proof.
  intros Hnone.
  assert (tile_names = []) as Hnil
    by (by apply tile_names_nil; rewrite parses_sorted).
  destruct (aborts_or_not listdir) as [Hex|Hno].
  - destruct (assemble_aborted_events Hex) as (? & ? & ? & ? & ?).
    split_and!; [done..| |done]. intros Hno. by destruct Hno.
  - destruct (assemble_nothing Hno Hnil) as (? & _ & ? & ? & ? & ?).
    split_and!; [done..| |]; [done|]. intros Hex. by destruct Hno.
Qed.

End AnyDirectory.

(** ** The canvas and the rectangles of the pastes *)

Lemma Forall2_elem_l {A B} (P : A → B → Prop) (l : list A) (k : list B) (x : A) :
  Forall2 P l k → x ∈ l → ∃ y, y ∈ k ∧ P x y.
Proof.
  induction 1 as [|a b l k Hab _ IH]; intros Hin; [by apply elem_of_nil in Hin|].
  apply elem_of_cons in Hin as [->|Hin].
  - exists b. split; [by left|done].
  - destruct (IH Hin) as (y & ? & ?). exists y. split; [by right|done].
Qed.

Lemma Forall2_elem_r {A B} (P : A → B → Prop) (l : list A) (k : list B) (y : B) :
  Forall2 P l k → y ∈ k → ∃ x, x ∈ l ∧ P x y.
Proof.
  induction 1 as [|a b l k Hab _ IH]; intros Hin; [by apply elem_of_nil in Hin|].
  apply elem_of_cons in Hin as [->|Hin].
  - exists a. split; [by left|done].
  - destruct (IH Hin) as (x & ? & ?). exists x. split; [by right|done].
Qed.

(** C5.  With a pan distance [p > 0], [N >= 1] rings and tiles that are all
    of the size (tileW, tileH) given as [cropped_image_size], on a
    directory that holds a tile and no name that aborts the collecting,
    the assembler returns after allocating one canvas,
    tileW + 2 p N + 6000 wide and tileH + 2 p N + 6000 high.  Each [.png]
    name that yields a position (x, y) with |x| <= N and |y| <= N is
    pasted, at the offset of the formula, and its rectangle lies within
    the canvas; nothing but the tiles of the directory is pasted; and a
    tile at (0, 0) lies within the canvas. *)
Theorem pastes_within_canvas listdir image_size cropped_dir base
    (p tileW tileH zoom N : Z) :
  0 < p → 1 ≤ N → 0 ≤ tileW → 0 ≤ tileH →
  (∀ name, name ∈ listdir →
           image_size (path_join cropped_dir name) = (tileW, tileH)) →
  Exists parses listdir → ¬ Exists aborts listdir →
  let canvas := canvas_size p (tileW, tileH) N in
  let run :=
    assemble_image_details listdir image_size cropped_dir base p
      (tileW, tileH) zoom N in
  canvas = (tileW + 2 * p * N + fixed_margin, tileH + 2 * p * N + fixed_margin) ∧
  fixed_margin = 6000 ∧
  run.2 = Returned () ∧
  canvases run.1 = [canvas] ∧
  (∀ name x y,
     name ∈ listdir → endswith name ".png" = true →
     parse_position name = Returned (x, y) → Z.abs x ≤ N → Z.abs y ≤ N →
     let offset := paste_offset (canvas_center canvas) p (x, y) (tileW, tileH) in
     (path_join cropped_dir name, offset, (tileW, tileH)) ∈ pastes run.1 ∧
     within_canvas canvas offset (tileW, tileH)) ∧
  (∀ paste, paste ∈ pastes run.1 →
     ∃ name x y,
       name ∈ listdir ∧ endswith name ".png" = true ∧
       parse_position name = Returned (x, y) ∧
       paste = (path_join cropped_dir name,
                paste_offset (canvas_center canvas) p (x, y) (tileW, tileH),
                (tileW, tileH))) ∧
  within_canvas canvas
    (paste_offset (canvas_center canvas) p (0, 0) (tileW, tileH)) (tileW, tileH).
Proof.
  intros Hp HN HW HH Hsize Htile Hno canvas run.
  destruct (canvas_size_positive p (tileW, tileH) N) as [Hcw Hch]; [simpl; lia..|].
  assert (filter (λ name, is_tile name) (sorted listdir) ≠ []) as Hne
    by (by rewrite tile_names_nil, parses_sorted; intros Hnone).
  destruct (assemble_on_canvas listdir image_size cropped_dir base p
              (tileW, tileH) zoom N Hno Hne Hcw Hch)
    as (tiles & Htiles & Hr & _ & Hc & Hpastes & _).
  fold run in Hr, Hc, Hpastes. fold canvas in Hc, Hpastes.
  split; [unfold canvas, canvas_size; f_equal; lia|]. split; [done|].
  split; [done|]. split; [done|]. split; [|split].
  - intros name x y Hin Hpng Hparse Hx Hy offset.
    split; [|by apply offset_within_canvas].
    destruct (Forall2_elem_l _ _ _ name Htiles) as ([img pos] & Ht & Himg & Hpos).
    { apply list_elem_of_filter. split; [|by rewrite sorted_elem].
      apply Is_true_true, is_tile_parses. split; [done|by eexists]. }
    simpl in Himg, Hpos. subst img. rewrite Hparse in Hpos.
    injection Hpos as <-. rewrite Hpastes. apply list_elem_of_fmap.
    exists (path_join cropped_dir name, (x, y)). split; [|done].
    cbn [fst snd]. by rewrite (Hsize name Hin).
  - intros paste Hin. rewrite Hpastes in Hin.
    apply list_elem_of_fmap in Hin as ([img [x y]] & -> & Ht).
    destruct (Forall2_elem_r _ _ _ _ Htiles Ht) as (name & Hname & Himg & Hpos).
    apply list_elem_of_filter in Hname as [Htile'%Is_true_true Hname].
    apply is_tile_parses in Htile' as [Hpng _].
    rewrite sorted_elem in Hname. simpl in Himg, Hpos. subst img.
    exists name, x, y. cbn [fst snd]. by rewrite (Hsize name Hname).
  - apply offset_within_canvas; [done..|lia|lia].
Qed.

(** X9.  The assembler does not depend on the order in which the
    directory is listed. *)
Theorem assemble_order_independent listdir listdir' image_size cropped_dir
    base p size zoom steps :
  listdir ≡ₚ listdir' →
  assemble_image_details listdir image_size cropped_dir base p size zoom steps =
  assemble_image_details listdir' image_size cropped_dir base p size zoom steps.
Proof.
  intros Hperm. unfold assemble_image_details.
  by rewrite (sorted_unique _ _ Hperm).
Qed.

End Interpreter.

End DirectoryFacts.

(** * The pans of a walk: drags and waits *)

Module PanFacts.
Import Osm20 Run TraceFacts NavFacts.

Section Pans.

Variable driver : Driver.
Variable dark : Dark.
Variable movement_pixels : Z.
Variable pan_wait_seconds : Z.

Local Abbreviation sub_step :=
  (sub_step driver dark movement_pixels pan_wait_seconds).
Local Abbreviation pass_events :=
  (pass_events driver dark movement_pixels pan_wait_seconds).
Local Abbreviation walk_direction :=
  (walk_direction driver dark movement_pixels pan_wait_seconds).
Local Abbreviation walk_ring :=
  (walk_ring driver dark movement_pixels pan_wait_seconds).
Local Abbreviation walk_rings :=
  (walk_rings driver dark movement_pixels pan_wait_seconds).
Local Abbreviation centering_pan :=
  (centering_pan driver movement_pixels pan_wait_seconds).
Local Abbreviation centering :=
  (centering driver movement_pixels pan_wait_seconds).
Local Abbreviation fetch_map_run :=
  (fetch_map_run driver dark movement_pixels pan_wait_seconds).
Local Abbreviation centering_events :=
  (centering_events driver movement_pixels pan_wait_seconds).

(** A property of states that the two kinds of pan keep holds at the end
    of a run. *)
Lemma run_invariant (P : NavState → Prop) (N : Z) :
  P initial →
  (∀ s, P s → P (centering_pan "right" (centering_pan "down" s))) →
  (∀ d s, d ∈ directions_values → P s → P (sub_step d s)) →
  P (fetch_map_run N).
Proof.
  intros Hinit Hcentering Hstep.
  unfold Osm20.fetch_map_run, Osm20.walk_rings.
  apply for_each_preserves; [intros k s Hs|].
  - unfold Osm20.walk_ring. apply for_each_preserves_elem; [|done].
    intros d s1 Hd Hs1. unfold Osm20.walk_direction.
    apply for_each_preserves; [|done]. intros _ s2 Hs2. by apply Hstep.
  - unfold Osm20.centering. apply for_each_preserves; [|done].
    intros _ s Hs. by apply Hcentering.
Qed.

(** Every event of a run is one an event of a pan has to be. *)
Lemma run_events (Q : Event → Prop) (N : Z) :
  Forall Q centering_events →
  (∀ d s, d ∈ directions_values → Forall Q (pass_events d s)) →
  Forall Q (trace (fetch_map_run N)).
Proof.
  intros Hc Hp. apply (run_invariant (λ s, Forall Q (trace s))).
  - constructor.
  - intros s Hs. rewrite centering_pass_events. by apply Forall_app.
  - intros d s Hd Hs. rewrite sub_step_trace. apply Forall_app. split; [done|].
    by apply Hp.
Qed.

(** X10.  On a viewport of non-negative size every drag of a run ends
    inside the viewport. *)
Theorem drags_stay_in_viewport (N : Z) :
  0 ≤ innerWidth driver → 0 ≤ innerHeight driver →
  Forall (drag_in_viewport driver) (trace (fetch_map_run N)).
Proof.
  intros HW HH. apply run_events.
  - unfold Run.centering_events. repeat constructor;
          cbn [drag_in_viewport drag_full_iff_fits drag_is_full fst snd]; lia.
  - intros d s _. unfold Osm20.pass_events.
    destruct (decide _); repeat constructor;
          cbn [drag_in_viewport drag_full_iff_fits drag_is_full fst snd]; lia.
Qed.

(** X11.  On such a viewport a drag is as long as the pan asked for
    exactly when the pan fits between the center and the edges; so with
    0 <= movement_pixels <= innerWidth // 2 and
    movement_pixels <= innerHeight // 2 every drag of a run is of full
    length. *)
Theorem drags_full_iff_fit (N : Z) :
  0 ≤ innerWidth driver → 0 ≤ innerHeight driver →
  Forall (drag_full_iff_fits driver) (trace (fetch_map_run N)) ∧
  (0 ≤ movement_pixels ≤ innerWidth driver / 2 →
   movement_pixels ≤ innerHeight driver / 2 →
   Forall drag_is_full (trace (fetch_map_run N))).
Proof.
  intros HW HH. split.
  - apply run_events.
    + unfold Run.centering_events. repeat constructor;
          cbn [drag_in_viewport drag_full_iff_fits drag_is_full fst snd]; lia.
    + intros d s _. unfold Osm20.pass_events.
      destruct (decide _); repeat constructor;
          cbn [drag_in_viewport drag_full_iff_fits drag_is_full fst snd]; lia.
  - intros Hx Hy.
    pose proof (Z.mul_div_le (innerWidth driver) 2 eq_refl).
    pose proof (Z.mul_div_le (innerHeight driver) 2 eq_refl).
    assert (0 ≤ movement_pixels / 2 ≤ movement_pixels).
    { split; [apply Z.div_pos; lia|apply Z.div_le_upper_bound; lia]. }
    apply run_events.
    + unfold Run.centering_events. repeat constructor;
          cbn [drag_in_viewport drag_full_iff_fits drag_is_full fst snd]; lia.
    + intros d s Hd. unfold Osm20.pass_events.
      repeat (apply elem_of_cons in Hd as [->|Hd]);
        [destruct (decide _); repeat constructor;
          cbn [drag_in_viewport drag_full_iff_fits drag_is_full fst snd]; lia..|].
      by apply elem_of_nil in Hd.
Qed.

(** The trace only grows. *)
Lemma walk_rings_extends (rings : list Z) (s : NavState) :
  ∃ tr, trace (for_each rings walk_ring s) = trace s ++ tr.
Proof.
  apply (for_each_preserves (λ s', ∃ tr, trace s' = trace s ++ tr)).
  - intros k s1 Hs1. unfold Osm20.walk_ring. apply for_each_preserves; [|done].
    intros d s2 Hs2. unfold Osm20.walk_direction.
    apply for_each_preserves; [|done]. intros _ s3 [tr Hs3].
    rewrite sub_step_trace, Hs3, <- app_assoc. by eexists.
  - exists []. by rewrite app_nil_r.
Qed.

(** X12.  When the pan distance exceeds half the height of the viewport,
    the first pan of the first ring (up) drags the map by half the height
    only, not by the pan distance. *)
Theorem tall_pan_is_cut_short (N : Z) :
  1 ≤ N → 0 ≤ innerHeight driver → innerHeight driver / 2 < movement_pixels →
  ∃ move_mouse_x move_mouse_y,
    Drag "up" 0 (-1) movement_pixels move_mouse_x move_mouse_y
      ∈ trace (fetch_map_run N) ∧
    move_mouse_y = - (innerHeight driver / 2) ∧
    - movement_pixels < move_mouse_y.
Proof.
  intros HN HH Hp. unfold Osm20.fetch_map_run.
  rewrite (walk_rings_split _ _ _ _ 1 N) by lia.
  destruct (walk_rings_extends (range_from (1 + 1) (N + 1))
              (walk_rings 1 (centering N initial))) as (tr & ->).
  change (walk_rings 1 (centering N initial))
    with (sub_step (-1, 0) (sub_step (0, 1) (sub_step (1, 0)
            (sub_step (0, -1) (centering N initial))))).
  rewrite !sub_step_trace. do 2 eexists. split.
  - rewrite !elem_of_app. do 4 left. right. unfold Osm20.pass_events.
    rewrite elem_of_app. right. right. left.
  - simpl. lia.
Qed.

(** ** The time slept *)

Lemma slept_app tr tr' : slept (tr ++ tr') = slept tr + slept tr'.
Proof.
  induction tr as [|e tr IH]; [done|]. destruct e; simpl; rewrite IH; lia.
Qed.

Lemma sum_of_ones (l : list Z) :
  foldr Z.add 0 ((λ _, 1) <$> l) = Z.of_nat (length l).
Proof.
  induction l as [|a l IH]; [done|].
  rewrite fmap_cons. cbn [foldr length]. rewrite IH. lia.
Qed.

Lemma wait_total (seconds : Z) : foldr Z.add 0 (wait seconds) = Z.max 0 seconds.
Proof. unfold wait, range. rewrite sum_of_ones, length_seqZ. lia. Qed.

(** X13.  A run sleeps once after every pan, [pan_wait_seconds] seconds
    when that is positive and not at all otherwise: for [N >= 0] rings,
    (4 N (N + 1) / 2 + 2 N) * max(0, pan_wait_seconds) seconds in all. *)
Theorem seconds_slept (N : Z) :
  0 ≤ N →
  slept (trace (fetch_map_run N)) =
    (4 * N * (N + 1) / 2 + 2 * N) * Z.max 0 pan_wait_seconds ∧
  slept (trace (fetch_map_run N)) =
    Z.of_nat (length (pan_events (trace (fetch_map_run N)))) *
    Z.max 0 pan_wait_seconds.
Proof.
  intros HN.
  assert (slept (trace (fetch_map_run N)) =
          Z.of_nat (length (pan_events (trace (fetch_map_run N)))) *
          Z.max 0 pan_wait_seconds) as Hslept.
  { apply (run_invariant
             (λ s, slept (trace s) =
                   Z.of_nat (length (pan_events (trace s))) *
                   Z.max 0 pan_wait_seconds)).
    - done.
    - intros s Hs. rewrite centering_pass_events, slept_app, pan_events_app,
        length_app, Hs. unfold Run.centering_events.
      cbn [slept pan_events is_pan length]. rewrite !wait_total. lia.
    - intros d s _ Hs. rewrite sub_step_trace, slept_app, pan_events_app,
        length_app, Hs. unfold Osm20.pass_events.
      destruct (decide _); cbn [slept pan_events is_pan length app];
        rewrite !wait_total; lia. }
  split; [|done]. rewrite Hslept. f_equal.
  replace (4 * N * (N + 1)) with (2 * N * (N + 1) * 2) by lia.
  rewrite Z.div_mul by done.
  destruct (centering_trace driver movement_pixels pan_wait_seconds N initial)
    as (tc & Htc & Hpc & _); [lia|].
  destruct (fetch_map_run_continues driver dark movement_pixels
              pan_wait_seconds N) as (tr & Htr & Hpr & _); [lia|].
  simpl in Htc. rewrite Htr, Htc, pan_events_app, length_app. lia.
Qed.

End Pans.
End PanFacts.

(** * [cleanup] *)

Module CleanupFacts.
Import Run RunFacts.

Lemma filter_not_png_nil_iff (l : list string) :
  filter not_png l = [] ↔ Forall (λ name, endswith name ".png" = true) l.
Proof.
  split; [|apply filter_not_png_nil].
  intros Hnil. apply Forall_forall. intros name Hin.
  destruct (endswith name ".png") eqn:Hpng; [done|].
  assert (name ∈ filter not_png l) as Hf by (by apply filter_not_png_elem).
  rewrite Hnil in Hf. by apply elem_of_nil in Hf.
Qed.

(** X14.  [cleanup] removes every [.png] name from both directories and no
    other name.  It removes [cropped_dir] exactly when that held nothing
    but [.png] files, and [raw_dir] exactly when both did: a file left in
    [cropped_dir] keeps [raw_dir] too, even an empty one, since one [try]
    holds both [rmdir]. *)
Theorem cleanup_removes_png_only (raw_dir cropped_dir : list string) :
  let all_png l := Forall (λ name, endswith name ".png" = true) l in
  let cleaned := cleanup raw_dir cropped_dir in
  (cropped_left cleaned = None ↔ all_png cropped_dir) ∧
  (raw_left cleaned = None ↔ all_png cropped_dir ∧ all_png raw_dir) ∧
  (rmdir_failed cleaned = false ↔ all_png cropped_dir ∧ all_png raw_dir) ∧
  (∀ left, cropped_left cleaned = Some left →
     ∀ name, name ∈ left ↔ name ∈ cropped_dir ∧ endswith name ".png" = false) ∧
  (∀ left, raw_left cleaned = Some left →
     ∀ name, name ∈ left ↔ name ∈ raw_dir ∧ endswith name ".png" = false).
Proof.
  intros all_png cleaned. subst all_png cleaned. unfold cleanup.
  rewrite <- !filter_not_png_nil_iff.
  pose proof (filter_not_png_elem cropped_dir) as Hc.
  pose proof (filter_not_png_elem raw_dir) as Hr.
  destruct (filter not_png cropped_dir) as [|c cs];
    destruct (filter not_png raw_dir) as [|r rs]; simpl;
    (split_and!; [split; intros; (done || by destruct_and?)..| |]);
    intros left [= <-]; done.
Qed.

End CleanupFacts.

(** * The walk of [osm19.py] *)

Module Osm19Facts.
Import Osm19Nav StringFacts.

Section Interpreter.
Context `{!UnicodeInt}.

Lemma for_each_related {A S T : Type} (R : S → T → Prop)
    (f : A → S → S) (g : A → T → T) (l : list A) :
  (∀ a s t, R s t → R (f a s) (g a t)) →
  ∀ s t, R s t → R (for_each l f s) (for_each l g t).
Proof.
  intros Hstep. induction l as [|a l IH]; intros s t Hst; [done|].
  rewrite !for_each_cons. by apply IH, Hstep.
Qed.

Lemma shots_app tr tr' : shots (tr ++ tr') = shots tr ++ shots tr'.
Proof. induction tr as [|e tr IH]; [done|]. destruct e; simpl; by rewrite IH. Qed.

Section Walk19.

Variable driver : Driver.
Variable dark : Dark.
Variable movement_pixels : Z.
Variable wait_seconds : Z.

Local Abbreviation sub_step19 :=
  (sub_step19 driver dark movement_pixels wait_seconds).
Local Abbreviation run19 :=
  (fetch_map_run19 driver dark movement_pixels wait_seconds).
Local Abbreviation sub_step20 :=
  (Osm20.sub_step driver dark movement_pixels wait_seconds).
Local Abbreviation run20 :=
  (Osm20.fetch_map_run driver dark movement_pixels wait_seconds).

Lemma sub_step_same_walk d s19 s20 :
  same_walk s19 s20 → same_walk (sub_step19 d s19) (sub_step20 d s20).
Proof.
  intros (Hx & Hy & Hpos & Hnum & Hi). unfold same_walk.
  destruct (NavFacts.sub_step_position driver dark movement_pixels wait_seconds
              d s20) as [-> ->].
  rewrite NavFacts.sub_step_trace, TraceFacts.visited_positions_app,
    NavFacts.pass_visited.
  destruct d as [dx dy]. unfold Osm19Nav.sub_step19. cbn [x19 y19 i19 trace19].
  rewrite shots_app, !fmap_app, Hpos, Hnum, Hx, Hy. cbn [shots fmap list_fmap fst snd].
  split; [done|]. split; [done|]. split; [done|].
  split; [|lia].
  rewrite (seqZ_app 0 (i19 s19) 1) by lia.
  rewrite (seqZ_cons (0 + i19 s19)) by lia.
  rewrite (seqZ_nil (Z.succ (0 + i19 s19))) by lia. by rewrite Z.add_0_l.
Qed.

(** The two walks stay together from the start to the end of a run. *)
Lemma runs_same_walk N : same_walk (run19 N) (run20 N).
Proof.
  unfold Osm19Nav.fetch_map_run19, Osm20.fetch_map_run, Osm20.walk_rings.
  apply for_each_related.
  - intros k s t Hst. unfold walk_ring19, Osm20.walk_ring.
    change Osm20.directions_values with directions.
    apply for_each_related; [|done]. intros d s' t' Hst'.
    unfold walk_direction19, Osm20.walk_direction.
    apply for_each_related; [|done]. intros _ s1 t1. apply sub_step_same_walk.
  - unfold same_walk.
    destruct (NavFacts.centering_frame driver movement_pixels wait_seconds N
                Osm20.initial) as (-> & -> & _).
    destruct (decide (0 ≤ N)) as [HN|HN].
    + destruct (NavFacts.centering_trace driver movement_pixels wait_seconds N
                  Osm20.initial HN) as (tr & Htr & _ & Hv & _).
      simpl in Htr. by rewrite Htr, Hv.
    + rewrite NavFacts.centering_nonpos by lia. done.
Qed.

Lemma visits_of_run20 N :
  0 ≤ N →
  Z.of_nat (length (Osm20.visited_positions (Osm20.trace (run20 N)))) =
    2 * N * (N + 1).
Proof.
  intros HN.
  destruct (NavFacts.centering_trace driver movement_pixels wait_seconds N
              Osm20.initial HN) as (tc & Htc & _ & Hvc & _).
  destruct (NavFacts.fetch_map_run_continues driver dark movement_pixels
              wait_seconds N HN) as (tr & Htr & _ & Hv).
  simpl in Htc. rewrite Htr, Htc, TraceFacts.visited_positions_app, Hvc. done.
Qed.

(** X15.  With [N >= 0] rings [osm19.py] takes a screenshot at every
    pass of the loop body, at the positions [osm20.py] visits and in the
    same order: 4 N (N + 1) / 2 screenshots, numbered 0, 1, 2, ... *)
Theorem osm19_photographs_every_visit (N : Z) :
  0 ≤ N →
  let taken := shots (trace19 (run19 N)) in
  taken.*2 = Osm20.visited_positions (Osm20.trace (run20 N)) ∧
  taken.*1 = seqZ 0 (4 * N * (N + 1) / 2) ∧
  Z.of_nat (length taken) = 4 * N * (N + 1) / 2.
Proof.
  intros HN taken. subst taken.
  destruct (runs_same_walk N) as (_ & _ & Hpos & Hnum & Hi).
  replace (4 * N * (N + 1)) with (2 * N * (N + 1) * 2) by lia.
  rewrite Z.div_mul by done.
  pose proof (visits_of_run20 N HN) as Hlen. rewrite <- Hpos in Hlen.
  rewrite length_fmap in Hlen.
  assert (i19 (run19 N) = 2 * N * (N + 1)) as Hcount.
  { pose proof (f_equal length Hnum) as Hl.
    rewrite length_fmap, length_seqZ in Hl. lia. }
  rewrite <- Hcount at 1. done.
Qed.

End Walk19.

(** ** The names of [osm19.py] *)

Lemma hash_number_chars (i : Z) :
  all_chars not_underscore ("#" +:+ pretty i) = true ∧
  all_chars not_dot ("#" +:+ pretty i) = true ∧
  all_chars not_space ("#" +:+ pretty i) = true.
Proof.
  pose proof (pretty_int_chars i) as Hi. rewrite !all_chars_app.
  rewrite (all_chars_impl _ _ _ int_char_not_underscore Hi).
  rewrite (all_chars_impl _ _ _ int_char_not_dot Hi).
  by rewrite (all_chars_impl _ _ _ int_char_not_space Hi).
Qed.

Lemma py_int_hash_number (i : Z) : py_int ("#" +:+ pretty i) = None.
Proof.
  destruct (hash_number_chars i) as (_ & _ & Hs).
  rewrite py_int_ascii.
  - unfold ascii_int. by rewrite strip_none.
  - unfold is_ascii. rewrite all_chars_app. apply andb_true_iff. split; [done|].
    apply (all_chars_impl is_int_char); [apply int_char_ascii|].
    apply pretty_int_chars.
Qed.

Lemma screenshot_name19_parts (i x y : Z) :
  endswith (screenshot_name19 i x y) ".png" = true ∧
  split_underscore (remove_png (screenshot_name19 i x y)) =
    ["screenshot"; "#" +:+ pretty i; pretty x; pretty y].
Proof.
  assert (screenshot_name19 i x y =
          ("screenshot" +:+ "_" +:+ ("#" +:+ pretty i) +:+ "_" +:+ pretty x +:+
           "_" +:+ pretty y) +:+ ".png")
    as -> by (by rewrite !string_app_assoc).
  split; [apply endswith_app|].
  pose proof (pretty_int_chars x) as Hx. pose proof (pretty_int_chars y) as Hy.
  destruct (hash_number_chars i) as (Hiu & Hid & _).
  rewrite remove_png_suffix.
  - rewrite split_underscore_app by done.
    rewrite split_underscore_app by done.
    rewrite split_underscore_app
      by (by apply (all_chars_impl is_int_char), Hx; apply int_char_not_underscore).
    by rewrite split_underscore_whole
      by (by apply (all_chars_impl is_int_char), Hy; apply int_char_not_underscore).
  - rewrite !all_chars_app in *.
    rewrite (all_chars_impl is_int_char not_dot _ int_char_not_dot Hx).
    rewrite (all_chars_impl is_int_char not_dot _ int_char_not_dot Hy).
    apply andb_true_iff in Hid as [_ ->]. done.
Qed.

Lemma screenshot_name19_inj (i x y i' x' y' : Z) :
  screenshot_name19 i x y = screenshot_name19 i' x' y' →
  i = i' ∧ x = x' ∧ y = y'.
Proof.
  intros Heq.
  destruct (screenshot_name19_parts i x y) as [_ Hp].
  destruct (screenshot_name19_parts i' x' y') as [_ Hp'].
  rewrite Heq, Hp' in Hp. injection Hp as Hi Hx Hy.
  change (pretty i' = pretty i) in Hi.
  by apply (inj pretty) in Hi, Hx, Hy.
Qed.

(** X17.  The name [osm19.py] gives the screenshot number [i] at (x, y) is
    parsed by its assembler back to (x, y); the number is not read, and
    names differ as soon as the number or the position does. *)
Theorem screenshot_name19_parses (i x y : Z) :
  endswith (screenshot_name19 i x y) ".png" = true ∧
  parse_position19 (screenshot_name19 i x y) = Returned (x, y) ∧
  ∀ i' x' y', screenshot_name19 i x y = screenshot_name19 i' x' y' →
              (i, x, y) = (i', x', y').
Proof.
  destruct (screenshot_name19_parts i x y) as [Hpng Hparts].
  split; [done|]. split.
  - unfold parse_position19. rewrite Hparts. cbn [lookup list_lookup].
    by rewrite !py_int_pretty.
  - by intros i' x' y' (-> & -> & ->)%screenshot_name19_inj.
Qed.

(** X18.  Neither version reads the names of the other.  The assembler of
    [osm20.py] finds no integer in the second part of a name of
    [osm19.py] (a ValueError: the tile is skipped with a warning); the
    assembler of [osm19.py] finds no fourth part in a name of [osm20.py]
    (an IndexError, which ends it). *)
Theorem versions_do_not_share_names (i x y : Z) :
  Osm20.parse_position (screenshot_name19 i x y) = Raised ValueError ∧
  parse_position19 (Run.screenshot_name x y) = Raised IndexError.
Proof.
  split.
  - destruct (screenshot_name19_parts i x y) as [_ Hparts].
    unfold Osm20.parse_position. rewrite Hparts. cbn [lookup list_lookup].
    by rewrite py_int_hash_number.
  - assert (Run.screenshot_name x y =
            ("screenshot" +:+ "_" +:+ pretty x +:+ "_" +:+ pretty y) +:+ ".png")
      as -> by (by rewrite !string_app_assoc).
    pose proof (pretty_int_chars x) as Hx. pose proof (pretty_int_chars y) as Hy.
    unfold parse_position19. rewrite remove_png_suffix.
    + rewrite split_underscore_app by done.
      rewrite split_underscore_app
        by (by apply (all_chars_impl is_int_char), Hx; apply int_char_not_underscore).
      rewrite split_underscore_whole
        by (by apply (all_chars_impl is_int_char), Hy; apply int_char_not_underscore).
      cbn [lookup list_lookup]. by rewrite py_int_pretty.
    + rewrite !all_chars_app.
      rewrite (all_chars_impl is_int_char not_dot _ int_char_not_dot Hx).
      by rewrite (all_chars_impl is_int_char not_dot _ int_char_not_dot Hy).
Qed.

Section Repeats.

Variable driver : Driver.
Variable dark : Dark.
Variable movement_pixels : Z.
Variable wait_seconds : Z.

Local Abbreviation run19 :=
  (fetch_map_run19 driver dark movement_pixels wait_seconds).
Local Abbreviation run20 :=
  (Osm20.fetch_map_run driver dark movement_pixels wait_seconds).

(** X16.  With two rings or more [osm19.py] photographs some position more
    than once (its 4 N (N + 1) / 2 screenshots lie on the (N + 1)^2 cells
    of the square), where [osm20.py] skips the revisit; the counter keeps
    the names of its screenshots apart all the same. *)
Theorem osm19_repeats_positions (N : Z) :
  2 ≤ N →
  let taken := shots (trace19 (run19 N)) in
  ¬ NoDup taken.*2 ∧
  NoDup (shot_names (trace19 (run19 N))) ∧
  (∀ p, p ∈ taken.*2 → 0 ≤ p.1 ≤ N ∧ - N ≤ p.2 ≤ 0) ∧
  NoDup (Osm20.captured_positions (Osm20.trace (run20 N))).
Proof.
  intros HN taken. subst taken.
  destruct (runs_same_walk driver dark movement_pixels wait_seconds N)
    as (_ & _ & Hpos & Hnum & Hi).
  destruct (NavFacts.fetch_map_run_consistent driver dark movement_pixels
              wait_seconds N) as (Hnd & Hseen & Hvis & _).
  assert (∀ p, p ∈ (shots (trace19 (run19 N))).*2 → Osm20.in_square N p) as Hsq.
  { intros p Hp. rewrite Hpos in Hp. apply Hvis, Hseen in Hp.
    apply NavFacts.fetch_map_run_seen in Hp as [_ ?]; [done|lia]. }
  split; [|split; [|split; [|done]]].
  - intros Hnodup.
    assert ((shots (trace19 (run19 N))).*2 ⊆+ Osm20.square_cells N) as Hsub.
    { apply NoDup_submseteq; [done|]. intros p Hp.
      by apply NavFacts.square_cells_elem, Hsq. }
    apply submseteq_length in Hsub.
    pose proof (visits_of_run20 driver dark movement_pixels wait_seconds N
                  ltac:(lia)) as Hlen.
    rewrite <- Hpos in Hlen.
    pose proof (NavFacts.square_cells_length N ltac:(lia)) as Hcells. nia.
  - unfold shot_names. apply NoDup_fmap_2_strong.
    + intros [i [x y]] [i' [x' y']] _ _ Heq. simpl in Heq.
      by apply screenshot_name19_inj in Heq as (-> & -> & ->).
    + pose proof (NoDup_seqZ 0 (i19 (run19 N))) as Hseq. rewrite <- Hnum in Hseq.
      by apply NoDup_fmap_1 in Hseq.
  - intros p Hp%Hsq. unfold Osm20.in_square in Hp. lia.
Qed.

End Repeats.

End Interpreter.

End Osm19Facts.

(** * The further statements at concrete runs *)

Section MoreInstances.
Import Osm20 Run.
Local Existing Instance ascii_digits_only.

Local Abbreviation sample_walk N :=
  (fetch_map_run sample_driver main_dark main_movement_pixels
     main_pan_wait_seconds N).



Lemma mixed_directory_not_aborted :
  ¬ Exists aborts ["readme.txt"; "screenshot_a_b.png"; "screenshot_0_0.png"]%string.
Proof.
  intros (name & Hin & Hpng & Hparse)%Exists_exists.
  repeat (apply elem_of_cons in Hin as [->|Hin]);
    [by vm_compute in Hpng|by vm_compute in Hparse..|by apply elem_of_nil in Hin].
Qed.

Lemma assemble_accounts_for_every_name_witness :
  ¬ Exists aborts ["readme.txt"; "screenshot_a_b.png"; "screenshot_0_0.png"]%string ∧
  let run :=
    assemble_image_details
      ["readme.txt"; "screenshot_a_b.png"; "screenshot_0_0.png"]%string
      (λ _, (400, 300)) "cropped_images" "map" 800 (400, 300) 13 1 in
  run.2 = Returned () ∧
  printed run.1 = [skip_message "screenshot_a_b.png"] ∧
  canvases run.1 = [(8000, 7900)].
Proof.
  split; [exact mixed_directory_not_aborted|].
  pose proof (DirectoryFacts.assemble_accounts_for_every_name
                ["readme.txt"; "screenshot_a_b.png"; "screenshot_0_0.png"]%string
                (λ _, (400, 300)) "cropped_images" "map" 800 (400, 300) 13 1
                mixed_directory_not_aborted) as Hrun.
  vm_compute in Hrun. destruct Hrun as [Hpainted _].
  destruct (Hpainted eq_refl eq_refl) as (Hr & Hp & Hc & _).
  split; [exact Hr|]. split; [exact Hp|exact Hc].
Defined.

(** Three tiles of 400 x 300, one ring away at most. *)
Lemma three_tiles_not_aborted :
  ¬ Exists aborts
      ["screenshot_0_0.png"; "screenshot_1_0.png"; "screenshot_0_-1.png"]%string.
Proof.
  intros (name & Hin & Hpng & Hparse)%Exists_exists.
  repeat (apply elem_of_cons in Hin as [->|Hin]);
    [by vm_compute in Hparse..|by apply elem_of_nil in Hin].
Qed.

Lemma three_tiles_hold_a_tile :
  Exists parses
    ["screenshot_0_0.png"; "screenshot_1_0.png"; "screenshot_0_-1.png"]%string.
Proof. left. split; [reflexivity|]. by exists (0, 0). Qed.

Lemma pastes_within_canvas_witness :
  0 < 800 ∧ 1 ≤ 1 ∧ 0 ≤ 400 ∧ 0 ≤ 300 ∧
  let run :=
    assemble_image_details
      ["screenshot_0_0.png"; "screenshot_1_0.png"; "screenshot_0_-1.png"]%string
      (λ _, (400, 300)) "cropped_images" "map" 800 (400, 300) 13 1 in
  canvases run.1 = [canvas_size 800 (400, 300) 1] ∧
  ("cropped_images/screenshot_1_0.png"%string, (3000, 3800), (400, 300))
    ∈ pastes run.1 ∧
  within_canvas (canvas_size 800 (400, 300) 1) (3000, 3800) (400, 300).
Proof.
  split; [lia|]. split; [lia|]. split; [lia|]. split; [lia|].
  destruct (DirectoryFacts.pastes_within_canvas
              ["screenshot_0_0.png"; "screenshot_1_0.png"; "screenshot_0_-1.png"]%string
              (λ _, (400, 300)) "cropped_images" "map" 800 400 300 13 1
              ltac:(lia) ltac:(lia) ltac:(lia) ltac:(lia) (λ _ _, eq_refl)
              three_tiles_hold_a_tile three_tiles_not_aborted)
    as (_ & _ & _ & Hcanvas & Htiles & _).
  split; [exact Hcanvas|].
  apply (Htiles "screenshot_1_0.png"%string 1 0);
    [by vm_compute; right; left|reflexivity|reflexivity|lia|lia].
Defined.

(** A directory that holds one image whose name has no coordinates. *)
Lemma no_tile_in_short_name : ¬ Exists parses ["map.png"]%string.
Proof.
  intros (name & Hin & _ & pos & Hparse)%Exists_exists.
  apply list_elem_of_singleton in Hin as ->. by vm_compute in Hparse.
Qed.

Lemma short_name_aborts : Exists aborts ["map.png"]%string.
Proof. left. by split. Qed.

Lemma nothing_to_assemble_witness :
  ¬ Exists parses ["map.png"]%string ∧
  let run :=
    assemble_image_details ["map.png"]%string (λ _, (400, 300))
      "cropped_images" "map" 800 (400, 300) 13 1 in
  run.2 = Raised IndexError ∧ (Print no_images_message ∉ run.1) ∧
  saved run.1 = [].
Proof.
  split; [exact no_tile_in_short_name|].
  destruct (DirectoryFacts.nothing_to_assemble ["map.png"]%string
              (λ _, (400, 300)) "cropped_images" "map" 800 (400, 300) 13 1
              no_tile_in_short_name) as (_ & _ & Hsaved & _ & Haborted).
  destruct (Haborted short_name_aborts) as [Hraised Hsilent].
  split; [exact Hraised|]. split; [exact Hsilent|exact Hsaved].
Defined.

Lemma assemble_order_independent_witness :
  assemble_image_details ["screenshot_1_0.png"; "screenshot_0_0.png"]%string
    (λ _, (400, 300)) "cropped_images" "map" 800 (400, 300) 13 1 =
  assemble_image_details ["screenshot_0_0.png"; "screenshot_1_0.png"]%string
    (λ _, (400, 300)) "cropped_images" "map" 800 (400, 300) 13 1.
Proof.
  apply DirectoryFacts.assemble_order_independent. apply Permutation_swap.
Defined.

Lemma drags_stay_in_viewport_witness :
  0 ≤ innerWidth sample_driver ∧ 0 ≤ innerHeight sample_driver ∧
  Forall (drag_in_viewport sample_driver) (trace (sample_walk 1)).
Proof.
  split; [simpl; lia|]. split; [simpl; lia|].
  apply PanFacts.drags_stay_in_viewport; simpl; lia.
Defined.

Lemma drags_full_iff_fit_witness :
  0 ≤ innerWidth sample_driver ∧ 0 ≤ innerHeight sample_driver ∧
  Forall drag_is_full
    (trace (fetch_map_run sample_driver main_dark 500 main_pan_wait_seconds 1)).
Proof.
  split; [simpl; lia|]. split; [simpl; lia|].
  apply (PanFacts.drags_full_iff_fit sample_driver main_dark 500
           main_pan_wait_seconds 1); [simpl; lia..| |]; by vm_compute.
Defined.

Lemma tall_pan_is_cut_short_witness :
  1 ≤ 1 ∧ 0 ≤ innerHeight sample_driver ∧
  innerHeight sample_driver / 2 < main_movement_pixels ∧
  ∃ move_mouse_x move_mouse_y,
    Drag "up" 0 (-1) main_movement_pixels move_mouse_x move_mouse_y
      ∈ trace (sample_walk 1) ∧
    move_mouse_y = - (innerHeight sample_driver / 2).
Proof.
  split; [lia|]. split; [simpl; lia|]. split; [by vm_compute|].
  destruct (PanFacts.tall_pan_is_cut_short sample_driver main_dark
              main_movement_pixels main_pan_wait_seconds 1)
    as (mx & my & Hin & Hy & _); [lia|simpl; lia|by vm_compute|].
  exists mx, my. split; [exact Hin|exact Hy].
Defined.

Lemma seconds_slept_witness :
  0 ≤ 2 ∧
  slept (trace (sample_walk 2)) =
    (4 * 2 * (2 + 1) / 2 + 2 * 2) * Z.max 0 main_pan_wait_seconds.
Proof.
  split; [lia|].
  apply (PanFacts.seconds_slept sample_driver main_dark main_movement_pixels
           main_pan_wait_seconds 2). lia.
Defined.

Lemma osm19_photographs_every_visit_witness :
  0 ≤ 2 ∧
  Z.of_nat
    (length (Osm19Nav.shots
               (Osm19Nav.trace19
                  (Osm19Nav.fetch_map_run19 sample_driver main_dark 800 6 2)))) =
    4 * 2 * (2 + 1) / 2.
Proof.
  split; [lia|].
  apply (Osm19Facts.osm19_photographs_every_visit sample_driver main_dark 800
           6 2). lia.
Defined.

Lemma osm19_repeats_positions_witness :
  2 ≤ 2 ∧
  ¬ NoDup (Osm19Nav.shots
             (Osm19Nav.trace19
                (Osm19Nav.fetch_map_run19 sample_driver main_dark 800 6 2))).*2.
Proof.
  split; [lia|].
  apply (Osm19Facts.osm19_repeats_positions sample_driver main_dark 800 6 2).
  lia.
Defined.

End MoreInstances.
